(** * fisk: the parsing and resolution engine, embedded and verified

    A shallow embedding of the command-line parser of [choria-io/fisk]
    ([app.go], the plugin delegator and the parts of the parser they call)
    together with the properties its specification states about it.

    Go values are modelled as follows.
    - [string] is Rocq's byte string; a [rune] is the UTF-8 encoding of one
      code point, the empty string standing for rune 0.
    - A pointer to typed storage ([*string], [*bool], [*[]string]) is an
      address into a heap of typed cells; reading an address nobody wrote
      returns the zero value of the type, as freshly allocated Go storage.
    - A Go [map] is a [gmap].  Go leaves the order in which [range] visits a
      map unspecified: every such loop takes its order from a [RangeOrder],
      a parameter of the model that returns some permutation of the entries.
    - [error] is a record of the wrapped sentinel (what [errors.Is] sees)
      and the message; [nil] is [None].
    - [os.Exit], reached through the injectable [terminate] callback, ends
      the run: computations live in a state monad whose outcome is either a
      returned value or an exit status. *)

From Stdlib Require Import Ascii String.
From stdpp Require Import base option list strings gmap sorting.

Local Open Scope string_scope.
Local Open Scope list_scope.

(** ** Strings *)

Module strings.

(** [strings.HasPrefix]. *)
Definition HasPrefix (s p : string) : bool := String.prefix p s.

(** [strings.Join]. *)
Definition Join (elems : list string) (sep : string) : string :=
  String.concat sep elems.

(** [strings.Split] for a separator of one byte: the fields between the
    occurrences of [sep]; a string without [sep] is its own only field. *)
Fixpoint Split_aux (s : string) (sep : ascii) (cur : string) : list string :=
  match s with
  | EmptyString => [cur]
  | String c s' =>
      if Ascii.eqb c sep then cur :: Split_aux s' sep ""
      else Split_aux s' sep (cur +:+ String c "")
  end.

Definition Split (s : string) (sep : ascii) : list string := Split_aux s sep "".

(** [strings.SplitN(s, sep, 2)]: cut [s] at the first [sep]; [None] as
    second component when [sep] does not occur. *)
Fixpoint Cut (s : string) (sep : ascii) : string * option string :=
  match s with
  | EmptyString => ("", None)
  | String c s' =>
      if Ascii.eqb c sep then ("", Some s')
      else let '(h, t) := Cut s' sep in (String c h, t)
  end.

(** [s[n:]]. *)
Fixpoint drop (n : nat) (s : string) : string :=
  match n, s with
  | 0, _ => s
  | S n', String _ s' => drop n' s'
  | S _, EmptyString => ""
  end.

End strings.

(** ** Errors ([errors.go]) *)

Inductive Sentinel :=
| ErrUnknownLongFlag
| ErrUnknownShortFlag
| ErrExpectedFlagArgument
| ErrCommandNotSpecified
| ErrSubCommandRequired
| ErrRequiredArgument
| ErrRequiredFlag
| ErrExpectedKnownCommand
| ErrFlagCannotRepeat
| ErrUnexpectedArgument.

#[global] Instance Sentinel_eq_dec : EqDecision Sentinel.
Proof. solve_decision. Defined.

(** A Go [error]: [wraps] is the sentinel reachable through [%w] (none for
    [fmt.Errorf] without [%w] and for errors of converters and callbacks). *)
Record error := mkError { wraps : option Sentinel; message : string }.

#[global] Instance error_eq_dec : EqDecision error.
Proof. solve_decision. Defined.

(** [errors.Is(err, target)] for a sentinel [target]. *)
Definition errors_Is (err : error) (target : Sentinel) : bool :=
  bool_decide (wraps err = Some target).

(** The sentinel itself, as [errors.New] made it. *)
Definition sentinel_message (s : Sentinel) : string :=
  match s with
  | ErrUnknownLongFlag => "unknown long flag"
  | ErrUnknownShortFlag => "unknown short flag"
  | ErrExpectedFlagArgument => "expected argument for flag"
  | ErrCommandNotSpecified => "command not specified"
  | ErrSubCommandRequired => "must select a subcommand"
  | ErrRequiredArgument => "required argument"
  | ErrRequiredFlag => "required flag"
  | ErrExpectedKnownCommand => "expected command"
  | ErrFlagCannotRepeat => "cannot be repeated"
  | ErrUnexpectedArgument => "unexpected argument"
  end.

Definition sentinel (s : Sentinel) : error := mkError (Some s) (sentinel_message s).

(** [fmt.Errorf] with one [%w]: [pre] and [post] are the text around it. *)
Definition Errorf_w (pre : string) (s : Sentinel) (post : string) : error :=
  mkError (Some s) (pre +:+ sentinel_message s +:+ post).

(** [fmt.Errorf] without [%w]. *)
Definition Errorf (msg : string) : error := mkError None msg.

(** ** The heap of bound targets, the trace and the monad *)

Abbreviation addr := nat.

(** Typed storage a Value converter is bound to. *)
Inductive Cell :=
| CString (s : string)
| CStrings (l : list string)
| CBool (b : bool).

#[global] Instance Cell_eq_dec : EqDecision Cell.
Proof. solve_decision. Defined.

(** The passes of [Application.Parse] and [Application.execute]. *)
Inductive Pass :=
| PSetDefaults
| PSetValues
| PPreActions
| PValidateRequired
| PValidators
| PActions.

#[global] Instance Pass_eq_dec : EqDecision Pass.
Proof. solve_decision. Defined.

(** The trace is ghost state: it records what the run did, in order.
    [EvPass] marks the entry into a pass, [EvSet] a call of a Value
    converter's [Set], [EvCall] the dispatch of a callback, each with the
    pass that made it. *)
Inductive Event :=
| EvPass (p : Pass)
| EvSet (p : Pass) (target : addr) (raw : string)
| EvCall (p : Pass) (owner : string)
| EvExec (p : Pass) (command : string) (args : list string)
| EvUsage (template : string)
| EvCompletion
| EvTerminate (status : nat).

#[global] Instance Event_eq_dec : EqDecision Event.
Proof. solve_decision. Defined.

Record World := mkWorld {
  heap : gmap addr Cell;          (* the bound targets *)
  environ : gmap string string;   (* the process environment, [os.Getenv] *)
  trace : list Event
}.

Inductive Outcome (A : Type) :=
| Ret (x : A)
| Exited (status : nat).
Arguments Ret {A} x.
Arguments Exited {A} status.

Definition M (A : Type) : Type := World -> Outcome A * World.

#[global] Instance M_ret : MRet M := fun A x w => (Ret x, w).
#[global] Instance M_bind : MBind M := fun A B f m w =>
  match m w with
  | (Ret x, w') => f x w'
  | (Exited n, w') => (Exited n, w')
  end.

Definition emit (e : Event) : M unit :=
  fun w => (Ret tt, mkWorld (heap w) (environ w) (trace w ++ [e])).

Definition load (a : addr) : M (option Cell) :=
  fun w => (Ret (heap w !! a), w).

Definition store (a : addr) (c : Cell) : M unit :=
  fun w => (Ret tt, mkWorld (<[a := c]> (heap w)) (environ w) (trace w)).

Definition Getenv (name : string) : M (option string) :=
  fun w => (Ret (environ w !! name), w).

Definition exit (status : nat) : M unit :=
  fun w => (Exited status, w).

(** Go's [if err := e; err != nil { return err }]. *)
Definition check (e : M (option error)) (k : M (option error)) : M (option error) :=
  r ← e; match r with Some err => mret (Some err) | None => k end.

Notation "'check!' e ; k" := (check e k)
  (at level 20, e at level 100, k at level 200, only parsing).

(** [for _, x := range xs { if err := body(x); err != nil { return err } }]. *)
Fixpoint for_each {A : Type} (xs : list A) (body : A -> M (option error))
  : M (option error) :=
  match xs with
  | [] => mret None
  | x :: xs' => check! body x; for_each xs' body
  end.

(** The order of a [range] over a Go map.  [site] names the loop, so that
    two loops over one map may see two orders. *)
Record RangeOrder := mkRangeOrder {
  order : forall (A : Type), nat -> list (string * A) -> list (string * A);
  order_perm : forall A site l, order A site l ≡ₚ l
}.
Arguments order _ {A} site l.

Definition range {A : Type} (o : RangeOrder) (site : nat) (m : gmap string A)
  : list (string * A) :=
  order o site (map_to_list m).

(** One possible run-time: maps are visited as [map_to_list] lists them. *)
Definition listed_order : RangeOrder :=
  mkRangeOrder (fun A _ l => l) (fun A _ l => reflexivity l).

(** ** Value converters ([Value] and its optional interfaces) *)

(** A converter is bound to its storage at [target]; [Set] either rejects
    the raw string with a message or gives the new contents of the storage
    from the old ones.  [IsBoolFlag], [IsNegatable] and [IsCumulative] are
    the capabilities probed by interface assertion; a converter that does
    not implement the interface answers [false]. *)
Record Value := mkValue {
  target : addr;
  convert : string -> option Cell -> string + Cell;
  String_ : option Cell -> string;
  IsBoolFlag : bool;
  IsNegatable : bool;
  IsCumulative : bool
}.

(** [v.Set(s)], called during pass [p]. *)
Definition Set_ (p : Pass) (v : Value) (s : string) : M (option error) :=
  emit (EvSet p (target v) s);;
  old ← load (target v);
  match convert v s old with
  | inl msg => mret (Some (Errorf msg))
  | inr new => store (target v) new;; mret None
  end.

Definition read_string (h : gmap addr Cell) (a : addr) : string :=
  match h !! a with Some (CString s) => s | _ => "" end.

Definition read_strings (h : gmap addr Cell) (a : addr) : list string :=
  match h !! a with Some (CStrings l) => l | _ => [] end.

Definition read_bool (h : gmap addr Cell) (a : addr) : bool :=
  match h !! a with Some (CBool b) => b | _ => false end.

(** Modelled from the spec: the converters behind [String()], [Strings()],
    [Bool()] and [UnNegatableBool()] ([values.go] is not among the sources).
    Section 3 gives their contract: parse a string into the typed storage,
    render it, and optionally report the boolean, negatable and cumulative
    capabilities; a cumulative converter accumulates repetitions into a
    sequence.  The README adds that [Bool()] flags get a negated form and
    [UnNegatableBool()] flags do not.  Booleans are parsed as Go's
    [strconv.ParseBool] does. *)
Definition ParseBool (s : string) : option bool :=
  if bool_decide (s ∈ ["1"; "t"; "T"; "TRUE"; "true"; "True"]) then Some true
  else if bool_decide (s ∈ ["0"; "f"; "F"; "FALSE"; "false"; "False"]) then Some false
  else None.

Definition stringValue (a : addr) : Value :=
  {| target := a;
     convert := fun s _ => inr (CString s);
     String_ := fun c => match c with Some (CString s) => s | _ => "" end;
     IsBoolFlag := false; IsNegatable := false; IsCumulative := false |}.

Definition stringsValue (a : addr) : Value :=
  {| target := a;
     convert := fun s c =>
       inr (CStrings (match c with Some (CStrings l) => l | _ => [] end ++ [s]));
     String_ := fun c =>
       match c with Some (CStrings l) => strings.Join l "," | _ => "" end;
     IsBoolFlag := false; IsNegatable := false; IsCumulative := true |}.

Definition boolValue (negatable : bool) (a : addr) : Value :=
  {| target := a;
     convert := fun s _ =>
       match ParseBool s with
       | Some b => inr (CBool b)
       | None => inl ("invalid syntax: " +:+ s)
       end;
     String_ := fun c =>
       match c with Some (CBool true) => "true" | _ => "false" end;
     IsBoolFlag := true; IsNegatable := negatable; IsCumulative := false |}.

(** ** Callbacks and actions *)

(** What a user callback (an [Action], a validator) can do: read and write
    the bound targets, return an error or end the process. *)
Inductive CbResult :=
| CbReturn (err : option error) (h : gmap addr Cell)
| CbExit (status : nat).

Definition Callback : Type := gmap addr Cell -> CbResult.

Definition run_callback (f : Callback) : M (option error) :=
  fun w =>
    match f (heap w) with
    | CbReturn err h => (Ret err, mkWorld h (environ w) (trace w))
    | CbExit n => (Exited n, w)
    end.

Definition call (p : Pass) (owner : string) (f : Callback) : M (option error) :=
  emit (EvCall p owner);; run_callback f.

(** [pluginDelegator] of the plugin source.  The maps hold pointers into the
    heap; [globalFlags] points to the host's flag group, of which the action
    reads only [long[f].value]. *)
Record pluginDelegator := mkPluginDelegator {
  pd_command : string;
  pd_flags : gmap string addr;
  pd_cumuFlags : gmap string addr;
  pd_boolFlags : gmap string addr;
  pd_unNegBoolFlags : gmap string addr;
  pd_args : gmap string addr;
  pd_cumuArgs : gmap string addr;
  pd_proxyGlobals : list string;
  pd_globalFlags : gmap string Value;
  pd_flagsIsSet : gmap string addr
}.

(** An [Action].  Those the library installs itself are named; [ActUser] is
    any callback of the embedding program. *)
Inductive Action :=
| ActUser (f : Callback)
| ActUsage (template : string)
| ActVersion (version : string)
| ActHelpCommand (command : addr)
| ActPlugin (pd : pluginDelegator) (run : string -> list string -> option error).

(** ** Clauses and groups *)

Record FlagClause := mkFlagClause {
  flag_name : string;
  shorthand : string;
  flag_required : bool;
  flag_defaultValues : list string;
  flag_envar : string;
  flag_noEnvar : bool;
  flag_value : Value;
  flag_setByUser : option addr;
  flag_preActions : list Action;
  flag_actions : list Action
}.

Record ArgClause := mkArgClause {
  arg_name : string;
  arg_required : bool;
  arg_defaultValues : list string;
  arg_envar : string;
  arg_value : Value;
  arg_setByUser : option addr;
  arg_preActions : list Action;
  arg_actions : list Action
}.

(** [flagGroup].  Its tables [long] and [short] are always those of its
    [flagOrder]: [Flag()] enters the clause under its long name (a later
    clause of the same name replaces the earlier one in the table, both stay
    in [flagOrder]), and initialisation enters every shorthand before
    anything reads [short].  The model keeps [flagOrder] as the data and
    reads the tables off it. *)
Record flagGroup := mkFlagGroup { flagOrder : list FlagClause }.

Definition long (fg : flagGroup) : gmap string FlagClause :=
  foldl (fun m f => <[flag_name f := f]> m) ∅ (flagOrder fg).

Definition short (fg : flagGroup) : gmap string FlagClause :=
  foldl (fun m f => if bool_decide (shorthand f = "") then m
                    else <[shorthand f := f]> m) ∅ (flagOrder fg).

(** [argGroup]. *)
Record argGroup := mkArgGroup { args : list ArgClause }.

(** [CmdClause] with its [cmdMixin].  [cmd_parent] stands for the chain of
    [parent] pointers: the names from the top-level command down to the
    parent.  [cmdGroup.commands] is a map filled from [commandOrder] (names
    at registration, aliases at initialisation); the model keeps
    [commandOrder] and looks names up in it. *)
#[warnings="-register-all"]
Inductive CmdClause := mkCmdClause {
  cmd_name : string;
  cmd_aliases : list string;
  cmd_isDefault : bool;
  cmd_parent : list string;
  cmd_flagGroup : flagGroup;
  cmd_argGroup : argGroup;
  cmd_commandOrder : list CmdClause;
  cmd_validator : option Callback;
  cmd_preActions : list Action;
  cmd_actions : list Action
}.

(** [len(c.commands)], [cmdGroup.have]. *)
Definition cmd_commands (c : CmdClause) : list CmdClause := cmd_commandOrder c.

(** [CmdClause.FullCommand()]: the names along the parent chain, joined by
    spaces. *)
Definition FullCommand (c : CmdClause) : string :=
  strings.Join (cmd_parent c ++ [cmd_name c]) " ".

Definition newFlagGroup : flagGroup := mkFlagGroup [].
Definition newArgGroup : argGroup := mkArgGroup [].

(** [flagGroup.Flag]: register a clause. *)
Definition addFlag (fg : flagGroup) (f : FlagClause) : flagGroup :=
  mkFlagGroup (flagOrder fg ++ [f]).

(** [argGroup.have], [cmdGroup.have]. *)
Definition have {A : Type} (l : list A) : bool :=
  match l with [] => false | _ => true end.

(** The injectable [terminate]: [None] when the process ends there. *)
Definition Terminate : Type := nat -> gmap addr Cell -> option (gmap addr Cell).

Definition os_Exit : Terminate := fun _ _ => None.
Definition no_op : Terminate := fun _ h => Some h.

(** [Application], with the fields the engine reads.  [HelpFlag] is a
    pointer into the application's own flag group: it is kept as the long
    name under which the flag is registered. *)
Record Application := mkApplication {
  app_flagGroup : flagGroup;
  app_argGroup : argGroup;
  app_commandOrder : list CmdClause;
  app_preActions : list Action;
  app_actions : list Action;
  initialized : bool;
  Name : string;
  validator : option Callback;
  terminate : Terminate;
  noInterspersed : bool;
  defaultEnvars : bool;
  completion : addr;
  HelpFlag : string;
  HelpCommand : option string
}.

(** Flags, built as the fluent calls build them. *)
Definition Flag_ (name : string) (v : Value) : FlagClause :=
  mkFlagClause name "" false [] "" false v None [] [].
Definition Short (r : string) (f : FlagClause) : FlagClause :=
  mkFlagClause (flag_name f) r (flag_required f) (flag_defaultValues f)
    (flag_envar f) (flag_noEnvar f) (flag_value f) (flag_setByUser f)
    (flag_preActions f) (flag_actions f).
Definition Required (f : FlagClause) : FlagClause :=
  mkFlagClause (flag_name f) (shorthand f) true (flag_defaultValues f)
    (flag_envar f) (flag_noEnvar f) (flag_value f) (flag_setByUser f)
    (flag_preActions f) (flag_actions f).
Definition Default (values : list string) (f : FlagClause) : FlagClause :=
  mkFlagClause (flag_name f) (shorthand f) (flag_required f) values
    (flag_envar f) (flag_noEnvar f) (flag_value f) (flag_setByUser f)
    (flag_preActions f) (flag_actions f).
Definition Envar (name : string) (f : FlagClause) : FlagClause :=
  mkFlagClause (flag_name f) (shorthand f) (flag_required f)
    (flag_defaultValues f) name false (flag_value f) (flag_setByUser f)
    (flag_preActions f) (flag_actions f).
Definition PreAction (a : Action) (f : FlagClause) : FlagClause :=
  mkFlagClause (flag_name f) (shorthand f) (flag_required f)
    (flag_defaultValues f) (flag_envar f) (flag_noEnvar f) (flag_value f)
    (flag_setByUser f) (flag_preActions f ++ [a]) (flag_actions f).

Definition Arg_ (name : string) (v : Value) : ArgClause :=
  mkArgClause name false [] "" v None [] [].
Definition ArgRequired (a : ArgClause) : ArgClause :=
  mkArgClause (arg_name a) true (arg_defaultValues a) (arg_envar a)
    (arg_value a) (arg_setByUser a) (arg_preActions a) (arg_actions a).
Definition ArgEnvar (name : string) (a : ArgClause) : ArgClause :=
  mkArgClause (arg_name a) (arg_required a) (arg_defaultValues a) name
    (arg_value a) (arg_setByUser a) (arg_preActions a) (arg_actions a).
Definition ArgDefault (values : list string) (a : ArgClause) : ArgClause :=
  mkArgClause (arg_name a) (arg_required a) values (arg_envar a)
    (arg_value a) (arg_setByUser a) (arg_preActions a) (arg_actions a).

(** A command without flags, arguments or subcommands under [parent]. *)
Definition Command_ (parent : list string) (name : string) : CmdClause :=
  mkCmdClause name [] false parent newFlagGroup newArgGroup [] None [] [].

Definition with_flags (fs : list FlagClause) (c : CmdClause) : CmdClause :=
  mkCmdClause (cmd_name c) (cmd_aliases c) (cmd_isDefault c) (cmd_parent c)
    (mkFlagGroup fs) (cmd_argGroup c) (cmd_commandOrder c)
    (cmd_validator c) (cmd_preActions c) (cmd_actions c).
Definition with_args (l : list ArgClause) (c : CmdClause) : CmdClause :=
  mkCmdClause (cmd_name c) (cmd_aliases c) (cmd_isDefault c) (cmd_parent c)
    (cmd_flagGroup c) (mkArgGroup l) (cmd_commandOrder c)
    (cmd_validator c) (cmd_preActions c) (cmd_actions c).
Definition with_commands (cs : list CmdClause) (c : CmdClause) : CmdClause :=
  mkCmdClause (cmd_name c) (cmd_aliases c) (cmd_isDefault c) (cmd_parent c)
    (cmd_flagGroup c) (cmd_argGroup c) cs
    (cmd_validator c) (cmd_preActions c) (cmd_actions c).
Definition with_cmd_preAction (a : Action) (c : CmdClause) : CmdClause :=
  mkCmdClause (cmd_name c) (cmd_aliases c) (cmd_isDefault c) (cmd_parent c)
    (cmd_flagGroup c) (cmd_argGroup c) (cmd_commandOrder c)
    (cmd_validator c) (cmd_preActions c ++ [a]) (cmd_actions c).

(** Storage the library allocates for itself. *)
Definition help_addr : addr := 0.
Definition help_long_addr : addr := 1.
Definition help_compact_addr : addr := 2.
Definition help_man_addr : addr := 3.
Definition completion_addr : addr := 4.
Definition completion_script_bash_addr : addr := 5.
Definition completion_script_zsh_addr : addr := 6.
Definition help_command_addr : addr := 7.

(** The flags [New] registers. *)
Definition builtin_flags : list FlagClause :=
  [ Flag_ "help" (boolValue false help_addr);
    PreAction (ActUsage "LongHelpTemplate")
      (Flag_ "help-long" (boolValue false help_long_addr));
    PreAction (ActUsage "CompactUsageTemplate")
      (Flag_ "help-compact" (boolValue false help_compact_addr));
    PreAction (ActUsage "ManPageTemplate")
      (Flag_ "help-man" (boolValue false help_man_addr));
    Flag_ "completion-bash" (boolValue false completion_addr);
    PreAction (ActUsage "BashCompletionTemplate")
      (Flag_ "completion-script-bash" (boolValue false completion_script_bash_addr));
    PreAction (ActUsage "ZshCompletionTemplate")
      (Flag_ "completion-script-zsh" (boolValue false completion_script_zsh_addr)) ].

(** [New(name, help)]. *)
Definition New (name : string) : Application :=
  {| app_flagGroup := mkFlagGroup builtin_flags;
     app_argGroup := newArgGroup;
     app_commandOrder := [];
     app_preActions := [];
     app_actions := [];
     initialized := false;
     Name := name;
     validator := None;
     terminate := os_Exit;
     noInterspersed := false;
     defaultEnvars := false;
     completion := completion_addr;
     HelpFlag := "help";
     HelpCommand := None |}.

(** Setters of the fluent interface and registration on the application. *)
Definition set_groups (fg : flagGroup) (ag : argGroup) (cs : list CmdClause)
    (a : Application) : Application :=
  mkApplication fg ag cs (app_preActions a) (app_actions a) (initialized a)
    (Name a) (validator a) (terminate a) (noInterspersed a) (defaultEnvars a)
    (completion a) (HelpFlag a) (HelpCommand a).

Definition AppFlag (f : FlagClause) (a : Application) : Application :=
  set_groups (addFlag (app_flagGroup a) f) (app_argGroup a) (app_commandOrder a) a.

Definition AppArg (x : ArgClause) (a : Application) : Application :=
  set_groups (app_flagGroup a) (mkArgGroup (args (app_argGroup a) ++ [x]))
    (app_commandOrder a) a.

(** [Application.Command]: a new top-level command. *)
Definition AppCommand (c : CmdClause) (a : Application) : Application :=
  set_groups (app_flagGroup a) (app_argGroup a) (app_commandOrder a ++ [c]) a.

(** [Application.Terminate]. *)
Definition SetTerminate (t : Terminate) (a : Application) : Application :=
  mkApplication (app_flagGroup a) (app_argGroup a) (app_commandOrder a)
    (app_preActions a) (app_actions a) (initialized a) (Name a) (validator a)
    t (noInterspersed a) (defaultEnvars a) (completion a) (HelpFlag a)
    (HelpCommand a).


(** [Application.DefaultEnvars]. *)
Definition DefaultEnvars (a : Application) : Application :=
  mkApplication (app_flagGroup a) (app_argGroup a) (app_commandOrder a)
    (app_preActions a) (app_actions a) (initialized a) (Name a) (validator a)
    (terminate a) (noInterspersed a) true (completion a) (HelpFlag a)
    (HelpCommand a).

Definition set_initialized (help : option string) (a : Application) : Application :=
  mkApplication (app_flagGroup a) (app_argGroup a) (app_commandOrder a)
    (app_preActions a) (app_actions a) true (Name a) (validator a)
    (terminate a) (noInterspersed a) (defaultEnvars a) (completion a)
    (HelpFlag a) help.

Definition set_HelpCommand (help : option string) (a : Application) : Application :=
  mkApplication (app_flagGroup a) (app_argGroup a) (app_commandOrder a)
    (app_preActions a) (app_actions a) (initialized a) (Name a) (validator a)
    (terminate a) (noInterspersed a) (defaultEnvars a) (completion a)
    (HelpFlag a) help.

(** [newTestApp] of the tests: [New("test", "").Terminate(nil)]. *)
Definition newTestApp : Application := SetTerminate no_op (New "test").

(** ** Initialisation *)

(** [envarTransform]: every run of bytes outside [a-zA-Z0-9_] becomes one
    underscore, then [strings.ToUpper]. *)
Definition is_word (c : ascii) : bool :=
  let n := nat_of_ascii c in
  (bool_decide (48 ≤ n ≤ 57)%nat || bool_decide (65 ≤ n ≤ 90)%nat
   || bool_decide (97 ≤ n ≤ 122)%nat || bool_decide (n = 95%nat))%bool.

Definition to_upper (c : ascii) : ascii :=
  let n := nat_of_ascii c in
  if bool_decide (97 ≤ n ≤ 122)%nat then ascii_of_nat (n - 32) else c.

Fixpoint envarTransform_from (in_run : bool) (s : string) : string :=
  match s with
  | EmptyString => ""
  | String c s' =>
      if is_word c then String (to_upper c) (envarTransform_from false s')
      else if in_run then envarTransform_from true s'
      else String "_" (envarTransform_from true s')
  end.

Definition envarTransform (name : string) : string := envarTransform_from false name.

(** [Application.defaultEnvarPrefix]. *)
Definition defaultEnvarPrefix (a : Application) : string :=
  if defaultEnvars a then Name a else "".

(** The first error of a loop that returns on the first error. *)
Definition first_error {A : Type} (xs : list A) (body : A -> option error)
  : option error :=
  (fix loop (xs : list A) : option error :=
     match xs with
     | [] => None
     | x :: xs' => match body x with Some e => Some e | None => loop xs' end
     end) xs.

(** Modelled from the spec: [flagGroup.init], [argGroup.init],
    [cmdGroup.init] and [CmdClause.init] ([flags.go], [args.go] and [cmd.go]
    are not among the sources).  Sections 3 and 4.4 and the scenarios of
    section 8 say what they do: a flag group rejects a long name or a
    shorthand registered twice and derives the environment-variable name
    [<PREFIX>_<NAME>] of a flag that has none (unless derivation is switched
    off for it); an argument group rejects a required argument after an
    optional one, unless it is the trailing cumulative one, and a cumulative
    argument that is not the last; a command group rejects two commands of
    one name or alias and more than one default; a command initialises its
    groups and then its subcommands, as the application does. *)
Fixpoint checkDuplicates (seenShort seenLong : gset string) (fs : list FlagClause)
  : option error :=
  match fs with
  | [] => None
  | f :: fs' =>
      if negb (bool_decide (shorthand f = ""))
         && bool_decide (shorthand f ∈ seenShort)
      then Some (Errorf ("duplicate short flag -" +:+ shorthand f))
      else if bool_decide (flag_name f ∈ seenLong)
      then Some (Errorf ("duplicate long flag --" +:+ flag_name f))
      else checkDuplicates ({[shorthand f]} ∪ seenShort)
                           ({[flag_name f]} ∪ seenLong) fs'
  end.

Definition derive_envar (prefix : string) (f : FlagClause) : FlagClause :=
  if negb (bool_decide (prefix = "")) && negb (flag_noEnvar f)
     && bool_decide (flag_envar f = "")
  then mkFlagClause (flag_name f) (shorthand f) (flag_required f)
         (flag_defaultValues f) (envarTransform (prefix +:+ "_" +:+ flag_name f))
         (flag_noEnvar f) (flag_value f) (flag_setByUser f)
         (flag_preActions f) (flag_actions f)
  else f.

Definition flagGroup_init (prefix : string) (fg : flagGroup)
  : option error * flagGroup :=
  match checkDuplicates ∅ ∅ (flagOrder fg) with
  | Some e => (Some e, fg)
  | None => (None, mkFlagGroup (derive_envar prefix <$> flagOrder fg))
  end.

Fixpoint argGroup_check (seenOptional : bool) (l : list ArgClause) : option error :=
  match l with
  | [] => None
  | x :: l' =>
      if IsCumulative (arg_value x) && have l'
      then Some (Errorf ("Args() can't be followed by another argument"))
      else if arg_required x && seenOptional && negb (IsCumulative (arg_value x))
      then Some (Errorf "required arguments found after non-required")
      else argGroup_check (seenOptional || negb (arg_required x)) l'
  end.

Definition argGroup_init (ag : argGroup) : option error :=
  argGroup_check false (args ag).

Fixpoint cmdGroup_check (seen : gset string) (defaults : nat) (cs : list CmdClause)
  : option error :=
  match cs with
  | [] => None
  | c :: cs' =>
      if bool_decide (cmd_name c ∈ seen)
      then Some (Errorf ("duplicate command " +:+ cmd_name c))
      else if bool_decide (Exists (fun x => x ∈ seen) (cmd_aliases c))
      then Some (Errorf "alias duplicates existing command")
      else if cmd_isDefault c && bool_decide (1 ≤ defaults)%nat
      then Some (Errorf "more than one default subcommand exists")
      else cmdGroup_check (list_to_set (cmd_name c :: cmd_aliases c) ∪ seen)
             (if cmd_isDefault c then S defaults else defaults) cs'
  end.

Definition cmdGroup_init (cs : list CmdClause) : option error :=
  cmdGroup_check ∅ 0 cs.

Definition set_cmd_groups (fg : flagGroup) (cs : list CmdClause) (c : CmdClause)
  : CmdClause :=
  mkCmdClause (cmd_name c) (cmd_aliases c) (cmd_isDefault c) (cmd_parent c)
    fg (cmd_argGroup c) cs (cmd_validator c) (cmd_preActions c) (cmd_actions c).

(** Initialise the commands of a group, each in place, up to the first
    error. *)
Definition init_each (init1 : CmdClause -> option error * CmdClause)
    (cs : list CmdClause) : option error * list CmdClause :=
  (fix loop (cs : list CmdClause) : option error * list CmdClause :=
     match cs with
     | [] => (None, [])
     | sub :: cs' =>
         let '(e, sub') := init1 sub in
         match e with
         | Some _ => (e, sub' :: cs')
         | None => let '(e', cs'') := loop cs' in (e', sub' :: cs'')
         end
     end) cs.

Fixpoint cmd_init (prefix : string) (c : CmdClause) : option error * CmdClause :=
  let '(e, fg) := flagGroup_init prefix (cmd_flagGroup c) in
  match e with
  | Some _ => (e, c)
  | None =>
  match argGroup_init (cmd_argGroup c) with
  | Some e => (Some e, set_cmd_groups fg (cmd_commandOrder c) c)
  | None =>
  match cmdGroup_init (cmd_commandOrder c) with
  | Some e => (Some e, set_cmd_groups fg (cmd_commandOrder c) c)
  | None =>
      let '(e, cs) := init_each (cmd_init prefix) (cmd_commandOrder c) in
      (e, set_cmd_groups fg cs c)
  end end end.

(** [a.commands]: every name and alias, with the place of its command in
    [commandOrder] for the pointer. *)
Definition commands_table (cs : list CmdClause) : gmap string nat :=
  foldl (fun m '(i, c) =>
           foldl (fun m key => <[key := i]> m) m (cmd_name c :: cmd_aliases c))
        ∅ (imap (fun i c => (i, c)) cs).

(** [cmdGroup.commands[name]]. *)
Definition lookup_command (cs : list CmdClause) (name : string) : option CmdClause :=
  i ← commands_table cs !! name; cs !! i.

(** The help command [init] adds: [Command("help", ...)] with the
    pre-action that prints usage and terminates, and the cumulative
    argument [command]. *)
Definition help_command : CmdClause :=
  with_cmd_preAction (ActHelpCommand help_command_addr)
    (with_args [Arg_ "command" (stringsValue help_command_addr)]
       (Command_ [] "help")).

(** [checkDuplicateFlags]: recursively check commands for duplicate flags. *)
Fixpoint checkDuplicateFlags (current : CmdClause) (flagGroups : list flagGroup)
  : option error :=
  match
    first_error flagGroups (fun flags =>
      first_error (flagOrder (cmd_flagGroup current)) (fun flag =>
        if negb (bool_decide (shorthand flag = ""))
           && bool_decide (is_Some (short flags !! shorthand flag))
        then Some (Errorf ("duplicate short flag -" +:+ shorthand flag))
        else if bool_decide (is_Some (long flags !! flag_name flag))
        then Some (Errorf ("duplicate long flag --" +:+ flag_name flag))
        else None))
  with
  | Some e => Some e
  | None =>
      let flagGroups := flagGroups ++ [cmd_flagGroup current] in
      (* Check subcommands. *)
      first_error (cmd_commandOrder current) (fun subcmd =>
        checkDuplicateFlags subcmd flagGroups)
  end.

(** The loop [for _, cmd := range a.commands { cmd.init() }]: the map is
    visited in the order [keys] gives, each visit initialises the command the
    entry points to, in place. *)
Fixpoint init_commands (prefix : string) (keys : list (string * nat))
    (cs : list CmdClause) : option error * list CmdClause :=
  match keys with
  | [] => (None, cs)
  | (_, i) :: keys' =>
      match cs !! i with
      | None => init_commands prefix keys' cs
      | Some cmd =>
          let '(e, cmd') := cmd_init prefix cmd in
          match e with
          | Some _ => (e, <[i := cmd']> cs)
          | None => init_commands prefix keys' (<[i := cmd']> cs)
          end
      end
  end.

(** [Application.init]. *)
Definition init (o : RangeOrder) (a : Application) : option error * Application :=
  if initialized a then (None, a)
  else if have (app_commandOrder a) && have (args (app_argGroup a))
  then (Some (Errorf "can't mix top-level Arg()s with Command()s"), a)
  else
    (* If we have subcommands, add a help command at the top-level. *)
    let a :=
      if have (app_commandOrder a)
      then set_HelpCommand (Some "help")
             (set_groups (app_flagGroup a) (app_argGroup a)
                (help_command :: app_commandOrder a) a)
      else a in
    let '(e, fg) := flagGroup_init (defaultEnvarPrefix a) (app_flagGroup a) in
    let a := set_groups fg (app_argGroup a) (app_commandOrder a) a in
    match e with
    | Some _ => (e, a)
    | None =>
    match cmdGroup_init (app_commandOrder a) with
    | Some e => (Some e, a)
    | None =>
    match argGroup_init (app_argGroup a) with
    | Some e => (Some e, a)
    | None =>
        let '(e, cs) :=
          init_commands (defaultEnvarPrefix a)
            (range o 0 (commands_table (app_commandOrder a)))
            (app_commandOrder a) in
        let a := set_groups (app_flagGroup a) (app_argGroup a) cs a in
        match e with
        | Some _ => (e, a)
        | None =>
            let flagGroups := [app_flagGroup a] in
            match first_error (app_commandOrder a)
                    (fun cmd => checkDuplicateFlags cmd flagGroups) with
            | Some e => (Some e, a)
            | None => (None, set_initialized (HelpCommand a) a)
            end
        end
    end end end.

(** ** The parse context *)

(** [ParseElement]: a matched clause and, for a flag or an argument, its raw
    value. *)
Inductive ParseElement :=
| ElemFlag (f : FlagClause) (value : string)
| ElemArg (a : ArgClause) (value : string)
| ElemCmd (c : CmdClause).

(** [ParseContext].  [remaining] holds the text of the tokens not consumed:
    [EOL()] is its emptiness and [Peek()] its head. *)
Record ParseContext := mkParseContext {
  SelectedCommand : option CmdClause;
  ignoreDefault : bool;
  argsOnly : bool;
  remaining : list string;
  rawArgs : list string;
  flags : flagGroup;
  arguments : argGroup;
  argumenti : nat;
  Elements : list ParseElement
}.

Definition EOL (context : ParseContext) : bool :=
  match remaining context with [] => true | _ => false end.

Definition Peek (context : ParseContext) : string :=
  match remaining context with [] => "" | t :: _ => t end.

(** Modelled from the spec: the tokenizer and the parser ([parser.go] and
    the flag matching of [flags.go] are not among the sources).  Section 4.1
    gives the token classes; classification is syntactic.  A short flag is
    one code point: [decode_rune] splits the first UTF-8 sequence off a
    string by the length its lead byte announces. *)
Inductive Token :=
| TokenLong (name : string) (value : option string)
| TokenShort (run : string)
| TokenArg (value : string)
| TokenEndOfFlags.

Definition tokenize_arg (argsOnly : bool) (arg : string) : Token :=
  if argsOnly then TokenArg arg
  else if bool_decide (arg = "--") then TokenEndOfFlags
  else if strings.HasPrefix arg "--"
  then let '(name, value) := strings.Cut (strings.drop 2 arg) "=" in
       TokenLong name value
  else if strings.HasPrefix arg "-" then TokenShort (strings.drop 1 arg)
  else TokenArg arg.

Definition rune_width (lead : ascii) : nat :=
  let n := nat_of_ascii lead in
  if bool_decide (n < 192)%nat then 1
  else if bool_decide (n < 224)%nat then 2
  else if bool_decide (n < 240)%nat then 3
  else 4.

(** The code points of a string, each as its bytes. *)
Fixpoint runes_from (pending : nat) (cur : string) (s : string) : list string :=
  match s with
  | EmptyString => if bool_decide (cur = "") then [] else [cur]
  | String c s' =>
      match pending with
      | 0 =>
          (if bool_decide (cur = "") then [] else [cur])
          ++ runes_from (rune_width c - 1) (String c "") s'
      | S k => runes_from k (cur +:+ String c "") s'
      end
  end.

Definition runes (s : string) : list string := runes_from 0 "" s.

Definition update_context (context : ParseContext)
    (selected : option CmdClause) (only : bool) (fg : flagGroup)
    (ag : argGroup) (i : nat) (elements : list ParseElement) : ParseContext :=
  mkParseContext selected (ignoreDefault context) only (remaining context)
    (rawArgs context) fg ag i elements.

Definition set_remaining (rest : list string) (context : ParseContext)
  : ParseContext :=
  mkParseContext (SelectedCommand context) (ignoreDefault context)
    (argsOnly context) rest (rawArgs context) (flags context)
    (arguments context) (argumenti context) (Elements context).

Definition set_argsOnly (context : ParseContext) : ParseContext :=
  update_context context (SelectedCommand context) true (flags context)
    (arguments context) (argumenti context) (Elements context).

Definition matchedFlag (f : FlagClause) (value : string) (context : ParseContext)
  : ParseContext :=
  update_context context (SelectedCommand context) (argsOnly context)
    (flags context) (arguments context) (argumenti context)
    (Elements context ++ [ElemFlag f value]).

(** A matched argument; one that is not cumulative is filled and the cursor
    moves on.  With interspersion disabled no flag is recognised after it. *)
Definition matchedArg (noInter : bool) (x : ArgClause) (value : string)
    (context : ParseContext) : ParseContext :=
  update_context context (SelectedCommand context)
    (argsOnly context || noInter) (flags context) (arguments context)
    (if IsCumulative (arg_value x) then argumenti context
     else S (argumenti context))
    (Elements context ++ [ElemArg x value]).

(** A matched command: its flags and arguments join the active ones. *)
Definition matchedCmd (c : CmdClause) (context : ParseContext) : ParseContext :=
  update_context context (Some c) (argsOnly context)
    (mkFlagGroup (flagOrder (flags context) ++ flagOrder (cmd_flagGroup c)))
    (mkArgGroup (args (arguments context) ++ args (cmd_argGroup c)))
    (argumenti context)
    (Elements context ++ [ElemCmd c]).

(** Section 4.2, the transitions.  What one token does to the parse. *)
Inductive Step :=
| Continue (cmds : list CmdClause) (context : ParseContext)
| Stop (context : ParseContext)
| Fail (e : error) (context : ParseContext).

(** A positional token goes to the next unfilled argument; when there is
    none and the current command has subcommands, it must name one of them;
    when there is neither, the parse ends before it. *)
Definition positional (noInter : bool) (cmds : list CmdClause)
    (context : ParseContext) (value : string) : Step :=
  match args (arguments context) !! argumenti context with
  | Some x => Continue cmds (matchedArg noInter x value context)
  | None =>
      if have cmds then
        match lookup_command cmds value with
        | Some c => Continue (cmd_commandOrder c) (matchedCmd c context)
        | None =>
            Fail (Errorf_w "" ErrExpectedKnownCommand (" but got " +:+ value)) context
        end
      else Stop context
  end.

(** A long flag is looked up in the active chain.  A name that is not
    registered and starts with [no-] is the negation of a negatable boolean
    flag; a flag registered under the [no-] name itself is found first. *)
Definition resolve_long (context : ParseContext) (name : string)
  : error + FlagClause * bool :=
  let unknown := Errorf_w "" ErrUnknownLongFlag (" '--" +:+ name +:+ "'") in
  match long (flags context) !! name with
  | Some f => inr (f, false)
  | None =>
      if strings.HasPrefix name "no-" then
        match long (flags context) !! strings.drop 3 name with
        | Some f =>
            if IsBoolFlag (flag_value f) && IsNegatable (flag_value f)
            then inr (f, true)
            else inl unknown
        | None => inl unknown
        end
      else inl unknown
  end.

(** A short-flag run is resolved code point by code point: a boolean flag
    takes no value and the run goes on; a flag that takes a value takes what
    is left of the run, or the next token when nothing is left. *)
Inductive RunResult :=
| RunDone (context : ParseContext)
| RunValue (f : FlagClause) (context : ParseContext)
| RunFail (e : error) (context : ParseContext).

Fixpoint short_run (context : ParseContext) (rs : list string) : RunResult :=
  match rs with
  | [] => RunDone context
  | r :: rs' =>
      match short (flags context) !! r with
      | None =>
          RunFail (Errorf_w "" ErrUnknownShortFlag (" '-" +:+ r +:+ "'")) context
      | Some f =>
          if IsBoolFlag (flag_value f)
          then short_run (matchedFlag f "true" context) rs'
          else match rs' with
               | [] => RunValue f context
               | _ => RunDone (matchedFlag f (String.concat "" rs') context)
               end
      end
  end.

Definition expected_argument (flag : string) : error :=
  Errorf_w "" ErrExpectedFlagArgument (" '" +:+ flag +:+ "'").

(** The loop over the argument vector; it stops at the first error. *)
Fixpoint parse_loop (noInter : bool) (cmds : list CmdClause)
    (context : ParseContext) (toks : list string)
  : option error * list CmdClause * ParseContext :=
  match toks with
  | [] => (None, cmds, set_remaining [] context)
  | arg :: rest =>
      let after (s : Step) (unconsumed : list string) :=
        match s with
        | Continue cmds' context' => parse_loop noInter cmds' context' rest
        | Stop context' => (None, cmds, set_remaining unconsumed context')
        | Fail e context' => (Some e, cmds, set_remaining unconsumed context')
        end in
      (* a flag that takes its value from the next token *)
      let value_from_next (f : FlagClause) (context : ParseContext) :=
        match rest with
        | [] => (Some (expected_argument arg), cmds, set_remaining [] context)
        | arg2 :: rest' =>
            match tokenize_arg (argsOnly context) arg2 with
            | TokenArg v => parse_loop noInter cmds (matchedFlag f v context) rest'
            | _ => (Some (expected_argument arg), cmds, set_remaining rest context)
            end
        end in
      match tokenize_arg (argsOnly context) arg with
      | TokenEndOfFlags => parse_loop noInter cmds (set_argsOnly context) rest
      | TokenArg v => after (positional noInter cmds context v) (arg :: rest)
      | TokenLong name value =>
          match resolve_long context name with
          | inl e => (Some e, cmds, set_remaining (arg :: rest) context)
          | inr (f, invert) =>
              if IsBoolFlag (flag_value f) then
                let context :=
                  matchedFlag f (if invert then "false" else "true") context in
                match value with
                | None => parse_loop noInter cmds context rest
                | Some v => after (positional noInter cmds context v) (v :: rest)
                end
              else
                match value with
                | Some v => parse_loop noInter cmds (matchedFlag f v context) rest
                | None => value_from_next f context
                end
          end
      | TokenShort run =>
          match runes run with
          | [] =>
              (Some (Errorf_w "" ErrUnknownShortFlag " '-'"), cmds,
               set_remaining (arg :: rest) context)
          | rs =>
              match short_run context rs with
              | RunDone context => parse_loop noInter cmds context rest
              | RunValue f context => value_from_next f context
              | RunFail e context =>
                  (Some e, cmds, set_remaining (arg :: rest) context)
              end
          end
      end
  end.

(** The default subcommands below a command group, outermost first: a
    command marked default is selected when its parent needs a subcommand
    and the arguments name none. *)
Fixpoint default_below (c : CmdClause) : list CmdClause :=
  c :: (fix first_default (cs : list CmdClause) : list CmdClause :=
          match cs with
          | [] => []
          | d :: cs' => if cmd_isDefault d then default_below d else first_default cs'
          end) (cmd_commandOrder c).

Definition default_chain (cmds : list CmdClause) : list CmdClause :=
  match filter (fun c => cmd_isDefault c = true) cmds with
  | [] => []
  | d :: _ => default_below d
  end.

(** [tokenize(args, ignoreDefault)]: the context before anything is matched. *)
Definition tokenize (arguments : list string) (ignoreDefault : bool) : ParseContext :=
  mkParseContext None ignoreDefault false arguments arguments
    newFlagGroup newArgGroup 0 [].

(** [parse(context, app)]. *)
Definition parse (context : ParseContext) (a : Application)
  : option error * ParseContext :=
  let context :=
    update_context context None false (app_flagGroup a) (app_argGroup a) 0 [] in
  let '(e, cmds, context) :=
    parse_loop (noInterspersed a) (app_commandOrder a) context (rawArgs context) in
  match e with
  | Some _ => (e, context)
  | None =>
      if ignoreDefault context then (None, context)
      else (None, foldl (fun ctx c => matchedCmd c ctx) context (default_chain cmds))
  end.

(** The observers [IsSetByUser] installs: a matched clause marks its cell.
    The parser does so as it matches; the loop below does it for the
    matched elements, in their order. *)
Definition mark_set_by_user (context : ParseContext) : M unit :=
  foldr (fun el (k : M unit) =>
           match el with
           | ElemFlag f _ =>
               match flag_setByUser f with
               | Some p => store p (CBool true);; k
               | None => k
               end
           | ElemArg x _ =>
               match arg_setByUser x with
               | Some p => store p (CBool true);; k
               | None => k
               end
           | ElemCmd _ => k
           end) (mret tt) (Elements context).

(** ** Defaults and environment variables *)

(** Modelled from the spec: [setDefault], [needsValue] and the reading of
    the bound environment variable ([flags.go], [args.go] and the envar
    mixin are not among the sources).  Section 4.3: a clause without an
    element takes its value from the environment variable it is bound to, a
    cumulative clause one value per line (lines end in LF or CR LF), or from
    its explicit defaults; every value goes through the clause's converter
    and the first rejection is the error.  The test
    [TestEnvarOverrideDefault] has the environment win over the explicit
    defaults.  A required clause needs a value when neither source has one.
    [os.Getenv] gives the empty string for an unset variable, so an empty
    variable counts as unset. *)
Definition trim_cr (s : string) : string :=
  match String.length s with
  | 0 => s
  | S n => if bool_decide (String.get n s = Some "013"%char)
           then String.substring 0 n s else s
  end.

Definition split_lines (s : string) : list string :=
  let lines := trim_cr <$> strings.Split s "010"%char in
  match reverse lines with
  | "" :: front => reverse front
  | _ => lines
  end.

Definition GetEnvarValue (envar : string) (noEnvar : bool) : M string :=
  if noEnvar || bool_decide (envar = "") then mret ""
  else v ← Getenv envar; mret (default "" v).

Definition setDefault (v : Value) (envar : string) (noEnvar : bool)
    (defaultValues : list string) : M (option error) :=
  e ← GetEnvarValue envar noEnvar;
  if negb (bool_decide (e = "")) then
    if IsCumulative v then for_each (split_lines e) (Set_ PSetDefaults v)
    else Set_ PSetDefaults v e
  else for_each defaultValues (Set_ PSetDefaults v).

Definition flag_setDefault (f : FlagClause) : M (option error) :=
  setDefault (flag_value f) (flag_envar f) (flag_noEnvar f) (flag_defaultValues f).

Definition arg_setDefault (x : ArgClause) : M (option error) :=
  setDefault (arg_value x) (arg_envar x) false (arg_defaultValues x).

Definition needsValue (required : bool) (envar : string) (noEnvar : bool)
    (defaultValues : list string) : M bool :=
  e ← GetEnvarValue envar noEnvar;
  mret (required && negb (have defaultValues || negb (bool_decide (e = "")))).

Definition flag_needsValue (f : FlagClause) : M bool :=
  needsValue (flag_required f) (flag_envar f) (flag_noEnvar f) (flag_defaultValues f).

Definition arg_needsValue (x : ArgClause) : M bool :=
  needsValue (arg_required x) (arg_envar x) false (arg_defaultValues x).

(** ** The resolution pipeline ([app.go]) *)

(** The first loop of [setDefaults]: the matched flags by name; [None] when
    the loop returned at a flag named [help]. *)
Fixpoint flagElements_unless_help (elements : list ParseElement)
    (flagElements : gmap string ParseElement) : option (gmap string ParseElement) :=
  match elements with
  | [] => Some flagElements
  | ElemFlag flag v :: elements' =>
      if bool_decide (flag_name flag = "help") then None
      else flagElements_unless_help elements'
             (<[flag_name flag := ElemFlag flag v]> flagElements)
  | _ :: elements' => flagElements_unless_help elements' flagElements
  end.

(** [flagElements] and [argElements] as [validateRequired] builds them. *)
Definition flagElements_of (elements : list ParseElement) : gmap string ParseElement :=
  foldl (fun m element =>
           match element with
           | ElemFlag flag _ => <[flag_name flag := element]> m
           | _ => m
           end) ∅ elements.

Definition argElements_of (elements : list ParseElement) : gmap string ParseElement :=
  foldl (fun m element =>
           match element with
           | ElemArg x _ => <[arg_name x := element]> m
           | _ => m
           end) ∅ elements.

(** [Application.setDefaults]. *)
Definition setDefaults (o : RangeOrder) (a : Application) (context : ParseContext)
  : M (option error) :=
  emit (EvPass PSetDefaults);;
  match flagElements_unless_help (Elements context) ∅ with
  | None => mret None
  | Some flagElements =>
      let argElements := argElements_of (Elements context) in
      check! for_each (range o 1 (long (flags context))) (fun '(_, flag) =>
               if bool_decide (flagElements !! flag_name flag = None)
               then flag_setDefault flag else mret None);
      for_each (args (arguments context)) (fun x =>
        if bool_decide (argElements !! arg_name x = None)
        then arg_setDefault x else mret None)
  end.

(** [Application.validateRequired]. *)
Definition validateRequired (o : RangeOrder) (a : Application)
    (context : ParseContext) : M (option error) :=
  emit (EvPass PValidateRequired);;
  let flagElements := flagElements_of (Elements context) in
  let argElements := argElements_of (Elements context) in
  check! for_each (range o 2 (long (flags context))) (fun '(_, flag) =>
           if bool_decide (flagElements !! flag_name flag = None) then
             needs ← flag_needsValue flag;
             if (needs : bool)
             then mret (Some (Errorf_w "" ErrRequiredFlag
                                (" --" +:+ flag_name flag +:+ " not provided")))
             else mret None
           else mret None);
  for_each (args (arguments context)) (fun x =>
    if bool_decide (argElements !! arg_name x = None) then
      needs ← arg_needsValue x;
      if (needs : bool)
      then mret (Some (Errorf_w "" ErrRequiredArgument
                         (" '" +:+ arg_name x +:+ "' not provided")))
      else mret None
    else mret None).

(** [Application.setValues]: set all arg and flag values.  The loop carries
    [selected], [lastCmd] and [flagSet]. *)
Fixpoint setValues_loop (elements : list ParseElement) (selected : list string)
    (lastCmd : option CmdClause) (flagSet : gset string)
  : M (list string * option error) :=
  match elements with
  | [] =>
      match lastCmd with
      | Some c =>
          if have (cmd_commands c)
          then mret ([], Some (Errorf_w "" ErrSubCommandRequired
                                 (" of '" +:+ FullCommand c +:+ "'")))
          else mret (selected, None)
      | None => mret (selected, None)
      end
  | ElemFlag clause value :: elements' =>
      if bool_decide (flag_name clause ∈ flagSet)
         && negb (IsCumulative (flag_value clause))
      then mret ([], Some (Errorf_w ("flag '" +:+ flag_name clause +:+ "' ")
                             ErrFlagCannotRepeat ""))
      else
        err ← Set_ PSetValues (flag_value clause) value;
        match err with
        | Some e => mret (selected, Some e)
        | None =>
            setValues_loop elements' selected lastCmd
              ({[flag_name clause]} ∪ flagSet)
        end
  | ElemArg clause value :: elements' =>
      err ← Set_ PSetValues (arg_value clause) value;
      match err with
      | Some e => mret (selected, Some e)
      | None => setValues_loop elements' selected lastCmd flagSet
      end
  | ElemCmd clause :: elements' =>
      setValues_loop elements' (selected ++ [cmd_name clause]) (Some clause) flagSet
  end.

Definition setValues (a : Application) (context : ParseContext)
  : M (list string * option error) :=
  emit (EvPass PSetValues);;
  setValues_loop (Elements context) [] None ∅.

(** [a.terminate(status)]. *)
Definition run_terminate (t : Terminate) (status : nat) : M unit :=
  fun w =>
    match t status (heap w) with
    | Some h => (Ret tt, mkWorld h (environ w) (trace w))
    | None => (Exited status, w)
    end.

Definition do_terminate (a : Application) (status : nat) : M unit :=
  emit (EvTerminate status);; run_terminate (terminate a) status.

(** A nil dereference or another run-time panic ends the process; the Go
    run-time exits with status 2. *)
Definition panic {A : Type} : M A := fun w => (Exited 2, w).

(** ** The plugin delegator *)

(** A loop that appends to [args]; [None] is a panic inside the body. *)
Fixpoint append_each {A : Type} (xs : list A) (body : A -> option (list string))
    (arguments : list string) : option (list string) :=
  match xs with
  | [] => Some arguments
  | x :: xs' => more ← body x; append_each xs' body (arguments ++ more)
  end.

(** [*pd.flagsIsSet[k]]: a nil dereference when [k] has no cell. *)
Definition flagsIsSet (pd : pluginDelegator) (h : gmap addr Cell) (k : string)
  : option bool :=
  p ← pd_flagsIsSet pd !! k; Some (read_bool h p).

(** The argument vector [pluginAction] builds, from the heap [h] and the
    selected command.  The pointers stored by [addArgsFromModel] and
    [addFlagsFromModel] are never nil, so the nil tests of the source are
    always passed. *)
Definition pluginArgs (o : RangeOrder) (pd : pluginDelegator)
    (h : gmap addr Cell) (selected : option CmdClause) : option (list string) :=
  c ← selected;
  let parts := strings.Split (FullCommand c) " " in
  let arguments := drop 1 parts in
  arguments ← append_each (range o 3 (pd_args pd)) (fun '(_, v) =>
    Some (if bool_decide (read_string h v = "") then [] else [read_string h v]))
    arguments;
  arguments ← append_each (range o 4 (pd_flags pd)) (fun '(k, v) =>
    set ← flagsIsSet pd h k;
    Some (if set : bool then ["--" +:+ k +:+ "=" +:+ read_string h v] else []))
    arguments;
  arguments ← append_each (range o 5 (pd_cumuFlags pd)) (fun '(k, v) =>
    append_each (read_strings h v) (fun cv =>
      set ← flagsIsSet pd h k;
      Some (if set : bool then ["--" +:+ k +:+ "=" +:+ cv] else [])) [])
    arguments;
  arguments ← append_each (range o 6 (pd_boolFlags pd)) (fun '(k, v) =>
    set ← flagsIsSet pd h k;
    Some (if set : bool
          then if read_bool h v then ["--" +:+ k] else ["--no-" +:+ k]
          else []))
    arguments;
  arguments ← append_each (range o 7 (pd_unNegBoolFlags pd)) (fun '(k, v) =>
    set ← flagsIsSet pd h k;
    Some (if set : bool then if read_bool h v then ["--" +:+ k] else [] else []))
    arguments;
  arguments ← append_each (pd_proxyGlobals pd) (fun f =>
    set ← flagsIsSet pd h f;
    if set : bool then
      v ← pd_globalFlags pd !! f;
      Some ["--" +:+ f +:+ "=" +:+ String_ v (h !! target v)]
    else Some [])
    arguments;
  (* must be last *)
  append_each (range o 8 (pd_cumuArgs pd)) (fun '(_, v) =>
    Some (filter (fun i => i ≠ "") (read_strings h v)))
    arguments.

(** [CmdClause.pluginAction]: build the vector and run the plugin with it;
    [run] is the plugin process, [cmd.Run()]. *)
Definition pluginAction (o : RangeOrder) (pd : pluginDelegator)
    (run : string -> list string -> option error) (p : Pass)
    (context : ParseContext) : M (option error) :=
  h ← (fun w => (Ret (heap w), w)) : M (gmap addr Cell);
  match pluginArgs o pd h (SelectedCommand context) with
  | None => panic
  | Some arguments =>
      emit (EvExec p (pd_command pd) arguments);;
      mret (run (pd_command pd) arguments)
  end.

(** ** Actions, validators and [Parse] *)

(** Calling one [Action] of clause [owner] during pass [p]. *)
Definition run_action (o : RangeOrder) (a : Application) (p : Pass)
    (owner : string) (context : ParseContext) (act : Action) : M (option error) :=
  match act with
  | ActUser f => call p owner f
  | ActUsage template =>
      emit (EvCall p owner);; emit (EvUsage template);;
      do_terminate a 0;; mret None
  | ActVersion version =>
      emit (EvCall p owner);; emit (EvUsage version);;
      do_terminate a 0;; mret None
  | ActHelpCommand command =>
      emit (EvCall p owner);; emit (EvUsage "usage");;
      do_terminate a 0;; mret None
  | ActPlugin pd run =>
      emit (EvCall p owner);; pluginAction o pd run p context
  end.

(** [actionMixin.applyActions] and [actionMixin.applyPreActions]: the
    callbacks of one clause, in registration order, up to the first error. *)
Definition apply_mixin (o : RangeOrder) (a : Application) (p : Pass)
    (owner : string) (context : ParseContext) (acts : list Action)
  : M (option error) :=
  for_each acts (run_action o a p owner context).

Definition element_name (element : ParseElement) : string :=
  match element with
  | ElemFlag f _ => flag_name f
  | ElemArg x _ => arg_name x
  | ElemCmd c => cmd_name c
  end.

Definition element_preActions (element : ParseElement) : list Action :=
  match element with
  | ElemFlag f _ => flag_preActions f
  | ElemArg x _ => arg_preActions x
  | ElemCmd c => cmd_preActions c
  end.

Definition element_actions (element : ParseElement) : list Action :=
  match element with
  | ElemFlag f _ => flag_actions f
  | ElemArg x _ => arg_actions x
  | ElemCmd c => cmd_actions c
  end.

(** [Application.applyValidators]: call command validation functions, then
    the application's. *)
Definition applyValidators (a : Application) (context : ParseContext)
  : M (option error) :=
  emit (EvPass PValidators);;
  check! for_each (Elements context) (fun element =>
           match element with
           | ElemCmd cmd =>
               match cmd_validator cmd with
               | Some v => call PValidators (cmd_name cmd) v
               | None => mret None
               end
           | _ => mret None
           end);
  match validator a with
  | Some v => call PValidators (Name a) v
  | None => mret None
  end.

(** [Application.applyPreActions]. *)
Definition applyPreActions (o : RangeOrder) (a : Application)
    (context : ParseContext) (dispatch : bool) : M (option error) :=
  emit (EvPass PPreActions);;
  check! apply_mixin o a PPreActions (Name a) context (app_preActions a);
  (* Dispatch to actions. *)
  if dispatch then
    for_each (Elements context) (fun element =>
      apply_mixin o a PPreActions (element_name element) context
        (element_preActions element))
  else mret None.

(** [Application.applyActions]. *)
Definition applyActions (o : RangeOrder) (a : Application)
    (context : ParseContext) : M (option error) :=
  emit (EvPass PActions);;
  check! apply_mixin o a PActions (Name a) context (app_actions a);
  (* Dispatch to actions. *)
  for_each (Elements context) (fun element =>
    apply_mixin o a PActions (element_name element) context
      (element_actions element)).

(** [Application.execute]. *)
Definition execute (o : RangeOrder) (a : Application) (context : ParseContext)
    (selected : list string) : M (string * option error) :=
  err ← validateRequired o a context;
  match err with Some e => mret ("", Some e) | None =>
  err ← applyValidators a context;
  match err with Some e => mret ("", Some e) | None =>
  err ← applyActions o a context;
  match err with Some e => mret ("", Some e) | None =>
  let command := strings.Join selected " " in
  if bool_decide (command = "") && have (app_commandOrder a)
  then mret ("", Some (sentinel ErrCommandNotSpecified))
  else mret (command, None)
  end end end.

(** [Application.writeUsage] with a nil error: usage, then [terminate(0)]. *)
Definition writeUsage (a : Application) (context : ParseContext) : M unit :=
  emit (EvUsage "usage");; do_terminate a 0.

(** [Application.maybeHelp].  The source re-parses the raw arguments with
    defaults ignored to get the context it renders; the rendering is all
    that uses it. *)
Definition maybeHelp (a : Application) (context : ParseContext) : M unit :=
  foldr (fun element (k : M unit) =>
           match element with
           | ElemFlag flag _ =>
               if bool_decide (flag_name flag = HelpFlag a)
               then writeUsage a context;; k else k
           | _ => k
           end) (mret tt) (Elements context).

(** [Application.generateBashCompletion]. *)
Definition generateBashCompletion (a : Application) (context : ParseContext)
  : M unit :=
  emit EvCompletion.

(** [Application.parseContext]; the context is nil when [init] failed. *)
Definition parseContext (o : RangeOrder) (ignoreDefault : bool)
    (a : Application) (arguments : list string)
  : Application * option ParseContext * option error :=
  let '(err, a) := init o a in
  match err with
  | Some e => (a, None, Some e)
  | None =>
      let context := tokenize arguments ignoreDefault in
      let '(err, context) := parse context a in
      (a, Some context, err)
  end.

(** The passes of [Application.Parse] once it has a context. *)
Definition resolve (o : RangeOrder) (a : Application) (context : ParseContext)
    (parseErr : option error) : M (string * option error) :=
  err ← setDefaults o a context;
  match err with Some e => mret ("", Some e) | None =>
  '(selected, setValuesErr) ← setValues a context;
  done ← (fun w => (Ret (read_bool (heap w) (completion a)), w)) : M bool;
  err ← applyPreActions o a context (negb done);
  match err with Some e => mret ("", Some e) | None =>
  done ← (fun w => (Ret (read_bool (heap w) (completion a)), w)) : M bool;
  if done : bool then
    generateBashCompletion a context;;
    do_terminate a 0;;
    mret ("", None)
  else
    match parseErr with Some e => mret ("", Some e) | None =>
    maybeHelp a context;;
    if negb (EOL context)
    then mret ("", Some (Errorf_w "" ErrUnexpectedArgument
                           (" '" +:+ Peek context +:+ "'")))
    else
      match setValuesErr with Some e => mret ("", Some e) | None =>
      '(command, err) ← execute o a context selected;
      (if bool_decide (err = Some (sentinel ErrCommandNotSpecified))
       then writeUsage a context else mret tt);;
      mret (command, err)
      end
    end
  end end.

(** [Application.Parse]: the application as [init] left it, and the run
    that gives the selected command and the error. *)
Definition Parse (o : RangeOrder) (a : Application) (arguments : list string)
  : Application * M (string * option error) :=
  let '(a, context, parseErr) := parseContext o false a arguments in
  (a, match context with
      | None =>
          (* Since we do not throw error immediately, there could be a case
             where a context returns nil. Protect against that. *)
          mret ("", parseErr)
      | Some context =>
          mark_set_by_user context;;
          resolve o a context parseErr
      end).

(** ** The applications of the tests *)

(** An empty world: nothing stored, no variable set, nothing done. *)
Definition w0 : World := mkWorld ∅ ∅ [].

(** The application of [TestRequiredFlags]: [--a] optional, [--b] required. *)
Definition required_flags_app : Application :=
  AppFlag (Required (Flag_ "b" (stringValue 11)))
    (AppFlag (Flag_ "a" (stringValue 10)) newTestApp).

(** The application of [TestRepeatableFlags]. *)
Definition repeatable_flags_app : Application :=
  AppFlag (Flag_ "b" (stringsValue 11))
    (AppFlag (Flag_ "a" (stringValue 10)) newTestApp).

(** The application of [TestSelectedCommand]: [c0] with the subcommand [c1]. *)
Definition selected_command_app : Application :=
  AppCommand (with_commands [Command_ ["c0"] "c1"] (Command_ [] "c0")) newTestApp.


(** Boolean flags [-a] and [-b] and a flag [-c] that takes a value. *)
Definition short_flags_app : Application :=
  AppFlag (Short "c" (Flag_ "cc" (stringValue 12)))
    (AppFlag (Short "b" (Flag_ "bb" (boolValue true 11)))
       (AppFlag (Short "a" (Flag_ "aa" (boolValue true 10))) newTestApp)).

(** The context of a parse, for an application that initialises. *)
Definition context_of (a : Application) (arguments : list string) : ParseContext :=
  match parseContext listed_order false a arguments with
  | (_, Some context, _) => context
  | (_, None, _) => tokenize arguments false
  end.

(** ** Vocabulary of the properties *)

(** The converter accepts the raw string, whatever its storage holds. *)
Definition accepted (v : Value) (raw : string) : Prop :=
  forall old, exists new, convert v raw old = inr new.

Definition element_accepted (element : ParseElement) : Prop :=
  match element with
  | ElemFlag f raw => accepted (flag_value f) raw
  | ElemArg x raw => accepted (arg_value x) raw
  | ElemCmd _ => True
  end.

(** The converter calls the matched elements ask for, in their order. *)
Definition sets_of (elements : list ParseElement) : list (Value * string) :=
  omap (fun element =>
          match element with
          | ElemFlag f raw => Some (flag_value f, raw)
          | ElemArg x raw => Some (arg_value x, raw)
          | ElemCmd _ => None
          end) elements.

(** The heap after one accepted [Set], and after a sequence of them. *)
Definition set_cell (h : gmap addr Cell) (call : Value * string) : gmap addr Cell :=
  match convert call.1 call.2 (h !! target call.1) with
  | inr new => <[target call.1 := new]> h
  | inl _ => h
  end.

Definition apply_sets (h : gmap addr Cell) (calls : list (Value * string))
  : gmap addr Cell :=
  foldl set_cell h calls.

(** A flag element that repeats the name of an earlier one belongs to a
    cumulative flag. *)
Definition repeats_are_cumulative (elements : list ParseElement) : Prop :=
  forall pre f raw post,
    elements = pre ++ ElemFlag f raw :: post ->
    (exists g u, ElemFlag g u ∈ pre /\ flag_name g = flag_name f) ->
    IsCumulative (flag_value f) = true.

(** The raw values the elements carry for the storage at [t]. *)
Definition values_for (t : addr) (elements : list ParseElement) : list string :=
  snd <$> filter (fun call => target call.1 = t) (sets_of elements).

(** Every element bound to [t] is bound through the [Strings()] converter. *)
Definition strings_at (t : addr) (elements : list ParseElement) : Prop :=
  Forall (fun call => target call.1 = t ->
                      convert call.1 = convert (stringsValue t))
         (sets_of elements).

(** The contexts of the two parses of [TestRepeatableFlags]. *)
Definition repeated_a_context : ParseContext :=
  context_of repeatable_flags_app ["--a=foo"; "--a=bar"].

Definition repeated_b_context : ParseContext :=
  context_of repeatable_flags_app ["--b=foo"; "--b=bar"].

(** The pass an event belongs to; usage, completion and termination belong
    to none. *)
Definition pass_of (e : Event) : option Pass :=
  match e with
  | EvPass p | EvSet p _ _ | EvCall p _ | EvExec p _ _ => Some p
  | EvUsage _ | EvCompletion | EvTerminate _ => None
  end.


Definition code_rank (p : Pass) : nat :=
  match p with
  | PSetDefaults => 0
  | PSetValues => 1
  | PPreActions => 2
  | PValidateRequired => 3
  | PValidators => 4
  | PActions => 5
  end.

Fixpoint ascending (n : nat) (ranks : list nat) : bool :=
  match ranks with
  | [] => true
  | r :: ranks' => bool_decide (n ≤ r)%nat && ascending r ranks'
  end.


(** The events a computation adds to the trace of [w]. *)
Definition events_of {A : Type} (m : M A) (w : World) : list Event :=
  drop (length (trace w)) (trace (m w).2).



(** All events belong to pass [p] or to none. *)
Definition only (p : Pass) (events : list Event) : Prop :=
  Forall (fun e => pass_of e = Some p \/ pass_of e = None) events.

(** The events are in the order of the code and none is of a pass before
    the one of rank [k]. *)
Definition from (k : nat) (events : list Event) : Prop :=
  ascending k (code_rank <$> omap pass_of events) = true.


(** ** A delegated plugin command *)

(** A run-time that visits every map in the reverse of [listed_order]. *)
Definition reversed_order : RangeOrder :=
  mkRangeOrder (fun A _ l => reverse l) (fun A _ l => reverse_Permutation l).

(** The delegator of a leaf command whose model declares the positional
    arguments [a] and then [b], as [addArgsFromModel] fills it, and a heap
    in which the parse bound [a] to ["1"] and [b] to ["2"]. *)
Definition two_args_delegator : pluginDelegator :=
  {| pd_command := "plugin-binary";
     pd_flags := ∅; pd_cumuFlags := ∅; pd_boolFlags := ∅; pd_unNegBoolFlags := ∅;
     pd_args := <["b" := 21]> (<["a" := 20]> ∅);
     pd_cumuArgs := ∅; pd_proxyGlobals := []; pd_globalFlags := ∅;
     pd_flagsIsSet := ∅ |}.

Definition two_args_heap : gmap addr Cell :=
  <[21 := CString "2"]> (<[20 := CString "1"]> ∅).

Definition plugin_leaf : CmdClause := Command_ ["plugin"] "leaf".

(** ** Duplicate flags across a command and its ancestors *)

(** [f] repeats a long name or a shorthand of the group [g]. *)
Definition clashes (f : FlagClause) (g : flagGroup) : Prop :=
  (exists f', f' ∈ flagOrder g /\ flag_name f' = flag_name f)
  \/ (shorthand f <> "" /\ exists f', f' ∈ flagOrder g /\ shorthand f' = shorthand f).

(** Below [c], whose ancestors have the flag groups [groups] (the
    application's first), some command has a flag that clashes with the
    group of one of its ancestors. *)
Inductive duplicate_below (groups : list flagGroup) (c : CmdClause) : Prop :=
| duplicate_here (f : FlagClause) (g : flagGroup) :
    f ∈ flagOrder (cmd_flagGroup c) -> g ∈ groups -> clashes f g ->
    duplicate_below groups c
| duplicate_deeper (sub : CmdClause) :
    sub ∈ cmd_commandOrder c ->
    duplicate_below (groups ++ [cmd_flagGroup c]) sub ->
    duplicate_below groups c.

(** What the duplicate check reads of a command tree: the long names and
    the shorthands, by group. *)
Definition flag_keys (g : flagGroup) : list (string * string) :=
  (fun f => (flag_name f, shorthand f)) <$> flagOrder g.

#[warnings="-register-all"]
Inductive Skeleton :=
| Skel (keys : list (string * string)) (subcommands : list Skeleton).

Fixpoint skeleton (c : CmdClause) : Skeleton :=
  Skel (flag_keys (cmd_flagGroup c))
       ((fix all (cs : list CmdClause) : list Skeleton :=
           match cs with
           | [] => []
           | sub :: cs' => skeleton sub :: all cs'
           end) (cmd_commandOrder c)).

(** The application of [TestTopLevelArgCantBeUsedWithCommands], and one
    whose command [cmd] declares the flag [--a] of the application again. *)
Definition mixed_app : Application :=
  AppCommand (Command_ [] "cmd") (AppArg (Arg_ "arg" (stringValue 10)) newTestApp).

Definition duplicate_flag_app : Application :=
  AppCommand (with_flags [Flag_ "a" (stringValue 11)] (Command_ [] "cmd"))
    (AppFlag (Flag_ "a" (stringValue 10)) newTestApp).

(** A flag or an argument with no environment variable, no default and no
    obligation: left alone when the arguments do not mention it. *)
Definition plain_flag (f : FlagClause) : Prop :=
  flag_envar f = "" /\ flag_defaultValues f = [] /\ flag_required f = false.

Definition plain_arg (x : ArgClause) : Prop :=
  arg_envar x = "" /\ arg_defaultValues x = [] /\ arg_required x = false.

(** The world after [events] were added to the trace and the heap became [h]. *)
Definition world_after (w : World) (h : gmap addr Cell) (events : list Event) : World :=
  mkWorld h (environ w) (trace w ++ events).



(** ** Vocabulary of the further properties *)


(** What a name of an environment variable is made of once transformed. *)
Definition envar_char (c : ascii) : bool :=
  let n := nat_of_ascii c in
  (bool_decide (48 ≤ n ≤ 57)%nat || bool_decide (65 ≤ n ≤ 90)%nat
   || bool_decide (n = 95%nat))%bool.

Fixpoint all_chars (p : ascii -> bool) (s : string) : bool :=
  match s with
  | EmptyString => true
  | String c s' => p c && all_chars p s'
  end.

(** The delegator as [addFlagsFromModel] leaves it: every flag it knows has
    its [flagsIsSet] cell, and every proxied global is a flag of the host. *)
Definition flags_tracked (pd : pluginDelegator) : Prop :=
  (forall k,
     is_Some (pd_flags pd !! k) \/ is_Some (pd_cumuFlags pd !! k)
     \/ is_Some (pd_boolFlags pd !! k) \/ is_Some (pd_unNegBoolFlags pd !! k)
     \/ k ∈ pd_proxyGlobals pd ->
     is_Some (pd_flagsIsSet pd !! k))
  /\ forall f, f ∈ pd_proxyGlobals pd -> is_Some (pd_globalFlags pd !! f).

(** [*pd.flagsIsSet[k]] where the cell exists. *)
Definition is_set (pd : pluginDelegator) (h : gmap addr Cell) (k : string) : bool :=
  default false (flagsIsSet pd h k).

(** What each loop of [pluginAction] appends, loop by loop. *)
Definition plugin_groups (o : RangeOrder) (pd : pluginDelegator)
    (h : gmap addr Cell) : list (list string) :=
  [ range o 3 (pd_args pd) ≫= (fun '(_, v) =>
      if bool_decide (read_string h v = "") then [] else [read_string h v]);
    range o 4 (pd_flags pd) ≫= (fun '(k, v) =>
      if is_set pd h k then ["--" +:+ k +:+ "=" +:+ read_string h v] else []);
    range o 5 (pd_cumuFlags pd) ≫= (fun '(k, v) =>
      read_strings h v ≫= (fun cv =>
        if is_set pd h k then ["--" +:+ k +:+ "=" +:+ cv] else []));
    range o 6 (pd_boolFlags pd) ≫= (fun '(k, v) =>
      if is_set pd h k
      then if read_bool h v then ["--" +:+ k] else ["--no-" +:+ k]
      else []);
    range o 7 (pd_unNegBoolFlags pd) ≫= (fun '(k, v) =>
      if is_set pd h k then if read_bool h v then ["--" +:+ k] else [] else []);
    pd_proxyGlobals pd ≫= (fun f =>
      if is_set pd h f
      then match pd_globalFlags pd !! f with
           | Some v => ["--" +:+ f +:+ "=" +:+ String_ v (h !! target v)]
           | None => []
           end
      else []);
    range o 8 (pd_cumuArgs pd) ≫= (fun '(_, v) =>
      filter (fun i => i ≠ "") (read_strings h v)) ].

(** A delegator with the positional [a], the remainder [rest], the string
    flag [--name] and the negatable flag [--verbose]; a heap in which the
    flags hold values and the user set neither, and one in which the user
    negated [--verbose]. *)
Definition flags_delegator : pluginDelegator :=
  {| pd_command := "plugin-binary";
     pd_flags := {["name" := 30]}; pd_cumuFlags := ∅;
     pd_boolFlags := {["verbose" := 31]}; pd_unNegBoolFlags := ∅;
     pd_args := {["a" := 20]};
     pd_cumuArgs := {["rest" := 22]}; pd_proxyGlobals := []; pd_globalFlags := ∅;
     pd_flagsIsSet := <["verbose" := 41]> {["name" := 40]} |}.

Definition unset_flags_heap : gmap addr Cell :=
  <[41 := CBool false]> (<[40 := CBool false]> (<[31 := CBool true]>
    (<[30 := CString "anonymous"]> (<[22 := CStrings ["x"; ""; "y"]]>
       {[20 := CString "1"]})))).

Definition negated_flag_heap : gmap addr Cell :=
  <[41 := CBool true]> (<[31 := CBool false]> unset_flags_heap).

(** A parse that dispatches nothing and defaults nothing: [--help] is not
    among the matched elements, the clauses without a matched element have
    no default, no environment variable and are not required, and neither
    the application nor a matched clause has a callback or a validator. *)
Definition plain_parse (a : Application) (context : ParseContext) : Prop :=
  HelpFlag a = "help"
  /\ Forall (fun element => match element with
                            | ElemFlag f _ => flag_name f <> "help"
                            | _ => True
                            end) (Elements context)
  /\ Forall (fun f => flagElements_of (Elements context) !! flag_name f = None ->
                      plain_flag f) (flagOrder (flags context))
  /\ Forall (fun x => argElements_of (Elements context) !! arg_name x = None ->
                      plain_arg x) (args (arguments context))
  /\ app_preActions a = [] /\ app_actions a = [] /\ validator a = None
  /\ Forall (fun element => element_preActions element = []
                            /\ element_actions element = []
                            /\ match element with
                               | ElemCmd c => cmd_validator c = None
                               | _ => True
                               end) (Elements context).

(** The application of [TestSelectedCommand] as [init] leaves it. *)
Definition selected_command_initialized : Application :=
  (init listed_order selected_command_app).2.

(** The clauses whose callbacks were called, as the trace has them. *)
Definition callers (events : list Event) : list string :=
  omap (fun e => match e with EvCall _ owner => Some owner | _ => None end) events.

(** [m] calls the callbacks of [owners], in this order: all of them when it
    returns no error, and the first ones when it returns an error or ends
    the process. *)
Definition dispatches (owners : list string) (m : M (option error)) : Prop :=
  forall w, exists events,
    trace (m w).2 = trace w ++ events
    /\ callers events `prefix_of` owners
    /\ ((m w).1 = Ret None -> callers events = owners).

(** The owner of each callback of a list, once per callback. *)
Definition owners_of (owner : string) (acts : list Action) : list string :=
  replicate (length acts) owner.

(** ** The data model of the command-line structure ([model.go]) *)


Record ArgModel := mkArgModel {
  am_Name : string;
  am_Help : string;
  am_Default : list string;
  am_Envar : string;
  am_PlaceHolder : string;
  am_Required : bool;
  am_Hidden : bool;
  am_Value : option Value;
  am_Cumulative : bool
}.


(** [strings.Repeat]. *)
Fixpoint Repeat (s : string) (count : nat) : string :=
  match count with
  | 0 => ""
  | S n => s +:+ Repeat s n
  end.

(** [ArgGroupModel.ArgSummary]: the loop carries [out] and [depth]; the
    statement after it indexes [out[len(out)-1]], which panics when the
    group has no argument ([None]). *)
Definition ArgSummary (a : list ArgModel) : option string :=
  let '(out, depth) :=
    foldl (fun '(out, depth) arg =>
             let h := if bool_decide (am_PlaceHolder arg ≠ "")
                      then am_PlaceHolder arg
                      else "<" +:+ am_Name arg +:+ ">" in
             if negb (am_Required arg)
             then (out ++ ["[" +:+ h], S depth)
             else (out ++ [h], depth))
          ([], 0) a in
  match out !! (length out - 1) with
  | None => None
  | Some last =>
      Some (strings.Join (<[length out - 1 := last +:+ Repeat "]" depth]> out) " ")
  end.




(** How often the byte [c] occurs in [s]. *)
Fixpoint count_char (c : ascii) (s : string) : nat :=
  match s with
  | EmptyString => 0
  | String d s' => (if Ascii.eqb c d then 1 else 0) + count_char c s'
  end.

(** The entry of one argument in the summary, and the optional arguments. *)
Definition summary_entry (arg : ArgModel) : string :=
  let h := if bool_decide (am_PlaceHolder arg ≠ "")
           then am_PlaceHolder arg
           else "<" +:+ am_Name arg +:+ ">" in
  if negb (am_Required arg) then "[" +:+ h else h.

Definition optional_args (a : list ArgModel) : nat :=
  length (filter (fun arg => am_Required arg = false) a).

(** Neither the name nor the placeholder of the argument has a bracket. *)
Definition bracket_free (arg : ArgModel) : Prop :=
  count_char "[" (am_Name arg) = 0 /\ count_char "]" (am_Name arg) = 0
  /\ count_char "[" (am_PlaceHolder arg) = 0
  /\ count_char "]" (am_PlaceHolder arg) = 0.

(** ** Cheats ([app.go]) *)

(** The order of Go on strings: byte by byte. *)
Definition string_le (s1 s2 : string) : Prop := String.leb s1 s2 = true.

#[global] Instance string_le_dec : RelDecision string_le.
Proof. intros s1 s2. unfold string_le. apply _. Defined.

(** [sort.Strings]. *)
Definition sort_Strings (l : list string) : list string := merge_sort string_le l.

(** [Application.listCheats], as the lines it writes to the usage writer,
    from the fields it reads: [a.Name] and the map [a.cheats]. *)
Definition listCheats (o : RangeOrder) (name : string) (cheats : gmap string string)
  : list string :=
  if bool_decide (size cheats = 0) then ["No cheats defined"]
  else
    let '(list, top) :=
      foldl (fun '(list, top) '(k, _) =>
               if bool_decide (k = name) then (list, name) else (list ++ [k], top))
            ([], "") (range o 9 cheats) in
    let list := sort_Strings list in
    let list := if bool_decide (top ≠ "") then top :: list else list in
    ["Available Cheats:"; ""] ++ ((fun k => "    " +:+ k) <$> list).

(** * Properties *)

(** ** Running computations *)

Lemma bind_Ret {A B : Type} (m : M A) (f : A -> M B) (w w' : World) (x : A) :
  m w = (Ret x, w') -> (m ≫= f) w = f x w'.
Proof. intros H. unfold mbind, M_bind. by rewrite H. Qed.

Lemma bind_Exited {A B : Type} (m : M A) (f : A -> M B) (w w' : World) (n : nat) :
  m w = (Exited n, w') -> (m ≫= f) w = (Exited n, w').
Proof. intros H. unfold mbind, M_bind. by rewrite H. Qed.

Lemma check_None (e k : M (option error)) (w w' : World) :
  e w = (Ret None, w') -> check e k w = k w'.
Proof. intros H. unfold check. by rewrite (bind_Ret _ _ _ _ _ H). Qed.

Lemma check_Some (e k : M (option error)) (w w' : World) (err : error) :
  e w = (Ret (Some err), w') -> check e k w = (Ret (Some err), w').
Proof. intros H. unfold check. by rewrite (bind_Ret _ _ _ _ _ H). Qed.

Lemma emit_then {A : Type} (e : Event) (k : M A) (w : World) :
  (emit e;; k) w = k (mkWorld (heap w) (environ w) (trace w ++ [e])).
Proof. reflexivity. Qed.

(** A body that does nothing leaves the loop with nothing to do. *)
Lemma for_each_inert {A : Type} (xs : list A) (body : A -> M (option error)) (w : World) :
  Forall (fun x => forall w, body x w = (Ret None, w)) xs ->
  for_each xs body w = (Ret None, w).
Proof.
  induction 1 as [|x xs Hx _ IH]; [done|].
  cbn [for_each]. by rewrite (check_None _ _ _ _ (Hx w)).
Qed.

(** A loop in which one entry acts and all the others do nothing does what
    that entry does, wherever the order of the loop puts it. *)
Lemma for_each_single {A : Type} (xs : list A) (x : A) (rest : list A)
    (body : A -> M (option error)) (w : World) :
  xs ≡ₚ x :: rest ->
  Forall (fun y => forall w, body y w = (Ret None, w)) rest ->
  for_each xs body w = for_each [x] body w.
Proof.
  intros Hp Hrest.
  assert (Hin : x ∈ xs) by (rewrite Hp; left).
  apply list_elem_of_split in Hin as (l1 & l2 & ->).
  assert (Hrest' : rest ≡ₚ l1 ++ l2).
  { apply (inj (cons x)). rewrite <- Hp. by rewrite Permutation_middle. }
  rewrite Hrest' in Hrest. apply Forall_app in Hrest as [H1 H2].
  clear Hp Hrest'. revert w. induction H1 as [|y l1 Hy _ IH]; intros w.
  - cbn [app for_each]. unfold check, mbind, M_bind.
    destruct (body x w) as [[[e|]|n] w1]; try done.
    by rewrite (for_each_inert _ _ _ H2).
  - cbn [app for_each]. rewrite (check_None _ _ _ _ (Hy w)). apply IH.
Qed.

(** ** The help flag and defaults *)

Lemma flagElements_unless_help_None (elements : list ParseElement)
    (m : gmap string ParseElement) (f : FlagClause) (v : string) :
  ElemFlag f v ∈ elements -> flag_name f = "help" ->
  flagElements_unless_help elements m = None.
Proof.
  intros Hin Hname. revert m.
  induction elements as [|el elements IH]; intros m.
  - by apply not_elem_of_nil in Hin.
  - apply elem_of_cons in Hin as [<-|Hin].
    + cbn. by rewrite bool_decide_eq_true_2.
    + destruct el as [g u|x u|c]; cbn; [case_bool_decide|..]; auto.
Qed.

(** C10: when the matched elements include the help flag, [setDefaults]
    returns at once with no error: no converter is called (the trace gains
    the entry into the pass and nothing else), no default and no
    environment variable is applied, and every bound target keeps its
    contents. *)
Theorem setDefaults_returns_at_help (o : RangeOrder) (a : Application)
    (context : ParseContext) (w : World) (f : FlagClause) (v : string) :
  ElemFlag f v ∈ Elements context ->
  flag_name f = "help" ->
  setDefaults o a context w
  = (Ret None, mkWorld (heap w) (environ w) (trace w ++ [EvPass PSetDefaults])).
Proof.
  intros Hin Hname. unfold setDefaults.
  by rewrite (flagElements_unless_help_None _ _ _ _ Hin Hname).
Qed.

Lemma setDefaults_returns_at_help_witness :
  setDefaults listed_order short_flags_app
    (context_of short_flags_app ["--help"; "-a"]) w0
  = (Ret None, mkWorld ∅ ∅ [EvPass PSetDefaults]).
Proof.
  apply (setDefaults_returns_at_help listed_order short_flags_app
           (context_of short_flags_app ["--help"; "-a"]) w0
           (Flag_ "help" (boolValue false help_addr)) "true").
  - vm_compute. apply list_elem_of_here.
  - reflexivity.
Defined.

(** ** Setting values *)

Lemma Set_accepted (p : Pass) (v : Value) (raw : string) (w : World) :
  accepted v raw ->
  Set_ p v raw w
  = (Ret None, mkWorld (set_cell (heap w) (v, raw)) (environ w)
                 (trace w ++ [EvSet p (target v) raw])).
Proof.
  intros Hacc. unfold Set_, set_cell, emit, load, store, mbind, M_bind, mret, M_ret.
  cbn. destruct (Hacc (heap w !! target v)) as [new ->]. done.
Qed.

(** The flag set of the loop, as the elements before build it. *)
Fixpoint no_repeat (flagSet : gset string) (elements : list ParseElement) : Prop :=
  match elements with
  | [] => True
  | ElemFlag f _ :: elements' =>
      (flag_name f ∉ flagSet \/ IsCumulative (flag_value f) = true)
      /\ no_repeat ({[flag_name f]} ∪ flagSet) elements'
  | _ :: elements' => no_repeat flagSet elements'
  end.

Lemma repeats_no_repeat (flagSet : gset string) (elements : list ParseElement) :
  (forall pre f raw post,
     elements = pre ++ ElemFlag f raw :: post ->
     flag_name f ∈ flagSet
     \/ (exists g u, ElemFlag g u ∈ pre /\ flag_name g = flag_name f) ->
     IsCumulative (flag_value f) = true) ->
  no_repeat flagSet elements.
Proof.
  revert flagSet. induction elements as [|el elements IH]; intros flagSet H; [done|].
  assert (Htail : forall seen',
    (forall n, n ∈ seen' -> n ∈ flagSet
               \/ exists g u, el = ElemFlag g u /\ flag_name g = n) ->
    no_repeat seen' elements).
  { intros seen' Hseen. apply IH. intros pre f raw post -> Hor.
    apply (H (el :: pre) f raw post); [done|].
    destruct Hor as [Hin|(g & u & Hin & Hn)].
    - destruct (Hseen _ Hin) as [?|(g & u & -> & Hn)]; [by left|].
      right. exists g, u. split; [left|done].
    - right. exists g, u. split; [by right|done]. }
  destruct el as [f raw|x raw|c]; cbn.
  - split.
    + destruct (decide (flag_name f ∈ flagSet)) as [Hin|]; [|by left].
      right. apply (H [] f raw elements); [done|by left].
    + apply Htail. intros n [->%elem_of_singleton|?]%elem_of_union; eauto.
  - apply Htail; eauto.
  - apply Htail; eauto.
Qed.

(** The result of the loop when nothing stops it before its end. *)
Definition after_loop (selected : list string) (lastCmd : option CmdClause)
  : list string * option error :=
  match lastCmd with
  | Some c =>
      if have (cmd_commands c)
      then ([], Some (Errorf_w "" ErrSubCommandRequired
                        (" of '" +:+ FullCommand c +:+ "'")))
      else (selected, None)
  | None => (selected, None)
  end.

(** What the loop has in [selected] and [lastCmd] at its end. *)
Definition selected_after (selected : list string) (elements : list ParseElement)
  : list string :=
  selected ++ omap (fun el => match el with ElemCmd c => Some (cmd_name c) | _ => None end)
                   elements.

Definition lastCmd_after (lastCmd : option CmdClause) (elements : list ParseElement)
  : option CmdClause :=
  foldl (fun last el => match el with ElemCmd c => Some c | _ => last end)
        lastCmd elements.

Lemma setValues_loop_all (elements : list ParseElement) (selected : list string)
    (lastCmd : option CmdClause) (flagSet : gset string) (w : World) :
  Forall element_accepted elements ->
  no_repeat flagSet elements ->
  exists tr,
    setValues_loop elements selected lastCmd flagSet w
    = (Ret (after_loop (selected_after selected elements)
                       (lastCmd_after lastCmd elements)),
       mkWorld (apply_sets (heap w) (sets_of elements)) (environ w) (trace w ++ tr))
    /\ tr = (fun call => EvSet PSetValues (target call.1) call.2) <$> sets_of elements.
Proof.
  intros Hacc. revert selected lastCmd flagSet w.
  induction Hacc as [|el elements Hel _ IH]; intros selected lastCmd flagSet w Hno.
  - exists []. split; [|done]. cbn. unfold selected_after. cbn.
    rewrite !app_nil_r. destruct w. unfold after_loop.
    by destruct lastCmd as [c|]; [destruct (have _)|].
  - destruct el as [f raw|x raw|c]; cbn in Hno |- *.
    + destruct Hno as [Hhead Hno].
      replace (bool_decide (flag_name f ∈ flagSet) && negb (IsCumulative (flag_value f)))
        with false.
      2:{ destruct Hhead as [?| ->]; [by rewrite bool_decide_eq_false_2|].
          by rewrite andb_false_r. }
      rewrite (bind_Ret _ _ _ _ _ (Set_accepted _ _ _ w Hel)).
      destruct (IH selected lastCmd _
                  (mkWorld (set_cell (heap w) (flag_value f, raw)) (environ w)
                     (trace w ++ [EvSet PSetValues (target (flag_value f)) raw])) Hno)
        as (tr & -> & ->).
      eexists. split; [|done]. cbn. by rewrite <- app_assoc.
    + rewrite (bind_Ret _ _ _ _ _ (Set_accepted _ _ _ w Hel)).
      destruct (IH selected lastCmd flagSet
                  (mkWorld (set_cell (heap w) (arg_value x, raw)) (environ w)
                     (trace w ++ [EvSet PSetValues (target (arg_value x)) raw])) Hno)
        as (tr & -> & ->).
      eexists. split; [|done]. cbn. by rewrite <- app_assoc.
    + destruct (IH (selected ++ [cmd_name c]) (Some c) flagSet w Hno) as (tr & -> & ->).
      eexists. split; [|done]. unfold selected_after. cbn. by rewrite <- app_assoc.
Qed.

Lemma setValues_loop_repeat (l rest : list ParseElement) (f : FlagClause)
    (raw : string) (selected : list string) (lastCmd : option CmdClause)
    (flagSet : gset string) (w : World) :
  Forall element_accepted l ->
  IsCumulative (flag_value f) = false ->
  flag_name f ∈ flagSet
  \/ (exists g u, ElemFlag g u ∈ l /\ flag_name g = flag_name f) ->
  exists e w',
    setValues_loop (l ++ ElemFlag f raw :: rest) selected lastCmd flagSet w
    = (Ret ([], Some e), w')
    /\ errors_Is e ErrFlagCannotRepeat = true.
Proof.
  intros Hacc Hcum. revert selected lastCmd flagSet w.
  induction Hacc as [|el l Hel _ IH]; intros selected lastCmd flagSet w Hseen.
  - destruct Hseen as [Hin|(g & u & Hin & _)]; [|by apply not_elem_of_nil in Hin].
    cbn. rewrite bool_decide_eq_true_2 by done. rewrite Hcum. cbn. eauto.
  - assert (Hnext : forall seen' : gset string,
              flagSet ⊆ seen' ->
              (forall g u, el = ElemFlag g u -> flag_name g ∈ seen') ->
              flag_name f ∈ seen'
              \/ (exists g u, ElemFlag g u ∈ l /\ flag_name g = flag_name f)).
    { intros seen' Hsub Hel'. destruct Hseen as [Hin|(g & u & Hin & Hn)].
      - left. by apply Hsub.
      - apply elem_of_cons in Hin as [<-|Hin]; [|right; eauto].
        left. rewrite <- Hn. by eapply Hel'. }
    destruct el as [g u|x u|c]; cbn.
    + destruct (bool_decide (flag_name g ∈ flagSet) && negb (IsCumulative (flag_value g)))
        eqn:Hfire; [cbn; eauto|].
      rewrite (bind_Ret _ _ _ _ _ (Set_accepted _ _ _ w Hel)).
      apply IH, Hnext; [apply union_subseteq_r|].
      intros ?? [= <- <-]. by apply elem_of_union_l, elem_of_singleton.
    + rewrite (bind_Ret _ _ _ _ _ (Set_accepted _ _ _ w Hel)).
      apply IH, Hnext; [done|]. intros ?? [=].
    + apply IH, Hnext; [done|]. intros ?? [=].
Qed.

Lemma apply_sets_strings (t : addr) (calls : list (Value * string))
    (h : gmap addr Cell) :
  Forall (fun call => target call.1 = t ->
                      convert call.1 = convert (stringsValue t)) calls ->
  read_strings (apply_sets h calls) t
  = read_strings h t ++ (snd <$> filter (fun call => target call.1 = t) calls).
Proof.
  intros Hall. revert h. induction Hall as [|[v raw] calls Hcall _ IH]; intros h.
  - cbn. by rewrite app_nil_r.
  - cbn [apply_sets foldl]. fold (apply_sets (set_cell h (v, raw)) calls).
    rewrite IH. rewrite filter_cons. cbn [fst snd] in *.
    destruct (decide (target v = t)) as [Ht|Ht].
    + cbn [fmap list_fmap snd]. rewrite (cons_middle raw), app_assoc. f_equal.
      unfold set_cell. cbn [fst snd]. rewrite (Hcall Ht), Ht. cbn.
      unfold read_strings. rewrite lookup_insert_eq.
      by destruct (h !! t) as [[]|].
    + f_equal. unfold set_cell. cbn [fst snd].
      destruct (convert v raw (h !! target v)); [done|].
      unfold read_strings. by rewrite lookup_insert_ne.
Qed.

(** C7: a flag clause matched more than once.  When its converter is not
    cumulative, [setValues] fails with [ErrFlagCannotRepeat] (the values
    matched before the repetition being ones their converters accept).
    When every repeated flag is cumulative, [setValues] calls the converter
    of every element, repetitions included, in encounter order, and fails
    for no repetition; through the [Strings()] converter the values
    accumulate in the target in that order. *)
Theorem setValues_repeated_flag (a : Application) (context : ParseContext) (w : World) :
  (forall pre f v1 mid v2 post,
     Elements context = pre ++ ElemFlag f v1 :: mid ++ ElemFlag f v2 :: post ->
     IsCumulative (flag_value f) = false ->
     Forall element_accepted (pre ++ ElemFlag f v1 :: mid) ->
     exists e w',
       setValues a context w = (Ret ([], Some e), w')
       /\ errors_Is e ErrFlagCannotRepeat = true)
  /\ (Forall element_accepted (Elements context) ->
      repeats_are_cumulative (Elements context) ->
      exists selected err w',
        setValues a context w = (Ret (selected, err), w')
        /\ heap w' = apply_sets (heap w) (sets_of (Elements context))
        /\ (forall e, err = Some e -> errors_Is e ErrFlagCannotRepeat = false)
        /\ forall t, strings_at t (Elements context) ->
             read_strings (heap w') t
             = read_strings (heap w) t ++ values_for t (Elements context)).
Proof.
  split.
  - intros pre f v1 mid v2 post Hel Hcum Hacc.
    unfold setValues. rewrite emit_then.
    rewrite Hel. rewrite (app_comm_cons mid), app_assoc.
    apply setValues_loop_repeat; [done..|].
    right. exists f, v1. split; [|done]. apply elem_of_app. right. left.
  - intros Hacc Hrep. unfold setValues. rewrite emit_then.
    assert (Hno : no_repeat ∅ (Elements context)).
    { apply repeats_no_repeat. intros pre f raw post Hel [Hin|Hpre].
      - by apply not_elem_of_empty in Hin.
      - by apply (Hrep pre f raw post). }
    destruct (setValues_loop_all (Elements context) [] None ∅
                (mkWorld (heap w) (environ w) (trace w ++ [EvPass PSetValues]))
                Hacc Hno) as (tr & Heq & _).
    rewrite Heq. destruct (after_loop _ _) as [selected err] eqn:Hafter.
    eexists _, _, _. split; [done|]. cbn. split; [done|]. split.
    + intros e ->. unfold after_loop in Hafter.
      destruct (lastCmd_after None (Elements context)) as [c|]; [|done].
      destruct (have (cmd_commands c)); [|done]. by injection Hafter as _ <-.
    + intros t Ht. by apply apply_sets_strings.
Qed.

Lemma setValues_repeated_flag_witness :
  (exists e w',
     setValues repeatable_flags_app repeated_a_context w0 = (Ret ([], Some e), w')
     /\ errors_Is e ErrFlagCannotRepeat = true)
  /\ exists selected err w',
       setValues repeatable_flags_app repeated_b_context w0 = (Ret (selected, err), w')
       /\ read_strings (heap w') 11 = ["foo"; "bar"].
Proof.
  split.
  - apply (proj1 (setValues_repeated_flag repeatable_flags_app repeated_a_context w0)
             [] (Flag_ "a" (stringValue 10)) "foo" [] "bar" []).
    + reflexivity.
    + reflexivity.
    + repeat constructor. intros old. by eexists.
  - destruct (proj2 (setValues_repeated_flag repeatable_flags_app repeated_b_context w0))
      as (selected & err & w' & Hrun & _ & _ & Hacc).
    + repeat constructor; intros old; by eexists.
    + intros pre f raw post Heq _.
      destruct pre as [|? [|? [|? pre]]]; cbn in Heq;
        try (by injection Heq as <-); try (by injection Heq as _ <-).
    + exists selected, err, w'. split; [done|].
      rewrite (Hacc 11); [reflexivity|]. repeat constructor.
Defined.

(** ** The order of the passes *)











Lemma from_nil (k : nat) : from k [].
Proof. done. Qed.






































(** ** The plugin delegator's argument vector *)

(** C2: the positional arguments follow the order of a map.  The delegator
    keeps the positional arguments in the Go map [pd.args], which has no
    record of the order of declaration; for the arguments [a] then [b],
    bound to ["1"] and ["2"], one order of the [range] gives
    [leaf 1 2] and another gives [leaf 2 1]. *)
Theorem pluginArgs_positionals_in_map_order :
  pluginArgs listed_order two_args_delegator two_args_heap (Some plugin_leaf)
  = Some ["leaf"; "1"; "2"]
  /\ pluginArgs reversed_order two_args_delegator two_args_heap (Some plugin_leaf)
     = Some ["leaf"; "2"; "1"].
Proof. vm_compute. done. Qed.

(** ** Structural validation *)

Lemma CmdClause_ind_nested (P : CmdClause -> Prop) :
  (forall c, Forall P (cmd_commandOrder c) -> P c) -> forall c, P c.
Proof.
  intros H. fix IH 1. intros c. apply H.
  destruct c as [? ? ? ? ? ? cs ? ? ?]. cbn.
  induction cs as [|sub cs IHcs]; constructor; [apply IH|apply IHcs].
Qed.

Lemma skeleton_unfold (c : CmdClause) :
  skeleton c = Skel (flag_keys (cmd_flagGroup c)) (skeleton <$> cmd_commandOrder c).
Proof.
  by destruct c.
Qed.

Lemma first_error_cons {A : Type} (x : A) (xs : list A) (body : A -> option error) :
  first_error (x :: xs) body
  = match body x with Some e => Some e | None => first_error xs body end.
Proof. reflexivity. Qed.

Lemma first_error_is_Some {A : Type} (xs : list A) (body : A -> option error) (x : A) :
  x ∈ xs -> is_Some (body x) -> is_Some (first_error xs body).
Proof.
  intros Hin Hx. induction xs as [|y xs IH]; [by apply not_elem_of_nil in Hin|].
  rewrite first_error_cons. destruct (body y) eqn:Hy; [done|].
  apply elem_of_cons in Hin as [->|Hin]; [|by apply IH].
  rewrite Hy in Hx. by destruct Hx.
Qed.

Lemma checkDuplicateFlags_unfold (current : CmdClause) (flagGroups : list flagGroup) :
  checkDuplicateFlags current flagGroups
  = match
      first_error flagGroups (fun flags =>
        first_error (flagOrder (cmd_flagGroup current)) (fun flag =>
          if negb (bool_decide (shorthand flag = ""))
             && bool_decide (is_Some (short flags !! shorthand flag))
          then Some (Errorf ("duplicate short flag -" +:+ shorthand flag))
          else if bool_decide (is_Some (long flags !! flag_name flag))
          then Some (Errorf ("duplicate long flag --" +:+ flag_name flag))
          else None))
    with
    | Some e => Some e
    | None =>
        first_error (cmd_commandOrder current) (fun subcmd =>
          checkDuplicateFlags subcmd (flagGroups ++ [cmd_flagGroup current]))
    end.
Proof. by destruct current. Qed.

Lemma long_is_Some (g : flagGroup) (n : string) :
  is_Some (long g !! n) <-> exists f, f ∈ flagOrder g /\ flag_name f = n.
Proof.
  unfold long.
  enough (H : forall m : gmap string FlagClause,
            is_Some (foldl (fun m f => <[flag_name f := f]> m) m (flagOrder g) !! n)
            <-> is_Some (m !! n) \/ exists f, f ∈ flagOrder g /\ flag_name f = n).
  { rewrite H, lookup_empty. split; [intros [[? [=]]|?]; done|by right]. }
  induction (flagOrder g) as [|f fs IH]; intros m; cbn.
  - split; [by left|]. intros [?|(f & Hin & _)]; [done|by apply not_elem_of_nil in Hin].
  - rewrite IH. destruct (decide (flag_name f = n)) as [<-|Hne].
    + rewrite lookup_insert_eq. split; [intros _|by eauto].
      right. exists f. split; [left|done].
    + rewrite lookup_insert_ne by done. split.
      * intros [?|(f' & Hin & Hn)]; [by left|]. right. exists f'. split; [by right|done].
      * intros [?|(f' & Hin & Hn)]; [by left|].
        apply elem_of_cons in Hin as [->|Hin]; [done|]. right. eauto.
Qed.

Lemma short_is_Some (g : flagGroup) (r : string) :
  r <> "" ->
  (is_Some (short g !! r) <-> exists f, f ∈ flagOrder g /\ shorthand f = r).
Proof.
  intros Hr. unfold short.
  enough (H : forall m : gmap string FlagClause,
            is_Some (foldl (fun m f => if bool_decide (shorthand f = "") then m
                                       else <[shorthand f := f]> m) m (flagOrder g) !! r)
            <-> is_Some (m !! r) \/ exists f, f ∈ flagOrder g /\ shorthand f = r).
  { rewrite H, lookup_empty. split; [intros [[? [=]]|?]; done|by right]. }
  induction (flagOrder g) as [|f fs IH]; intros m; cbn.
  - split; [by left|]. intros [?|(f & Hin & _)]; [done|by apply not_elem_of_nil in Hin].
  - rewrite IH. case_bool_decide as Hs.
    + split.
      * intros [?|(f' & Hin & Hn)]; [by left|]. right. exists f'. split; [by right|done].
      * intros [?|(f' & Hin & Hn)]; [by left|].
        apply elem_of_cons in Hin as [->|Hin]; [congruence|]. right. eauto.
    + destruct (decide (shorthand f = r)) as [<-|Hne].
      * rewrite lookup_insert_eq. split; [intros _|by eauto].
        right. exists f. split; [left|done].
      * rewrite lookup_insert_ne by done. split.
        -- intros [?|(f' & Hin & Hn)]; [by left|]. right. exists f'. split; [by right|done].
        -- intros [?|(f' & Hin & Hn)]; [by left|].
           apply elem_of_cons in Hin as [->|Hin]; [done|]. right. eauto.
Qed.

(** [checkDuplicateFlags] finds every duplicate below a command. *)
Lemma checkDuplicateFlags_complete (groups : list flagGroup) (c : CmdClause) :
  duplicate_below groups c -> is_Some (checkDuplicateFlags c groups).
Proof.
  induction 1 as [groups c f g Hf Hg Hclash|groups c sub Hsub _ IH];
    rewrite checkDuplicateFlags_unfold.
  - match goal with |- is_Some (match ?x with _ => _ end) =>
      assert (Hsome : is_Some x); [|by destruct Hsome as [e ->]] end.
    apply (first_error_is_Some _ _ g Hg), (first_error_is_Some _ _ f Hf).
    destruct Hclash as [Hlong|[Hr Hshort]].
    + apply long_is_Some in Hlong. destruct (_ && _); [done|].
      by rewrite bool_decide_eq_true_2.
    + apply (short_is_Some _ _ Hr) in Hshort.
      rewrite (bool_decide_eq_false_2 _ Hr), (bool_decide_eq_true_2 _ Hshort). done.
  - destruct (first_error groups _); [done|].
    by apply (first_error_is_Some _ _ sub Hsub).
Qed.

Lemma flagGroup_init_keys (prefix : string) (g : flagGroup) :
  flag_keys (flagGroup_init prefix g).2 = flag_keys g.
Proof.
  unfold flagGroup_init. destruct (checkDuplicates _ _ _); [done|].
  unfold flag_keys. cbn. rewrite <- list_fmap_compose. apply list_fmap_ext.
  intros i f _. cbn. unfold derive_envar. by destruct (_ && _).
Qed.

Lemma init_each_cons (init1 : CmdClause -> option error * CmdClause)
    (sub : CmdClause) (cs : list CmdClause) :
  init_each init1 (sub :: cs)
  = let '(e, sub') := init1 sub in
    match e with
    | Some _ => (e, sub' :: cs)
    | None => let '(e', cs') := init_each init1 cs in (e', sub' :: cs')
    end.
Proof. reflexivity. Qed.

Lemma cmd_init_unfold (prefix : string) (c : CmdClause) :
  cmd_init prefix c
  = let '(e, fg) := flagGroup_init prefix (cmd_flagGroup c) in
    match e with
    | Some _ => (e, c)
    | None =>
    match argGroup_init (cmd_argGroup c) with
    | Some e => (Some e, set_cmd_groups fg (cmd_commandOrder c) c)
    | None =>
    match cmdGroup_init (cmd_commandOrder c) with
    | Some e => (Some e, set_cmd_groups fg (cmd_commandOrder c) c)
    | None =>
        let '(e, cs) := init_each (cmd_init prefix) (cmd_commandOrder c) in
        (e, set_cmd_groups fg cs c)
    end end end.
Proof. by destruct c. Qed.

(** Initialisation changes no long name and no shorthand. *)
Lemma cmd_init_skeleton (prefix : string) (c : CmdClause) :
  skeleton (cmd_init prefix c).2 = skeleton c.
Proof.
  induction c as [c IH] using CmdClause_ind_nested.
  rewrite cmd_init_unfold.
  pose proof (flagGroup_init_keys prefix (cmd_flagGroup c)) as Hkeys.
  destruct (flagGroup_init prefix (cmd_flagGroup c)) as [[e|] fg]; [done|].
  cbn [snd] in Hkeys.
  assert (Hsame : forall cs, skeleton <$> cs = skeleton <$> cmd_commandOrder c ->
                  skeleton (set_cmd_groups fg cs c) = skeleton c).
  { intros cs Hcs. rewrite !skeleton_unfold. cbn. by rewrite Hkeys, Hcs. }
  destruct (argGroup_init _); [by apply Hsame|].
  destruct (cmdGroup_init _); [by apply Hsame|].
  destruct (init_each _ _) as [e cs] eqn:Heach. cbn [snd]. apply Hsame.
  clear Hsame Hkeys. revert e cs Heach.
  induction IH as [|sub subs Hsub _ IHsubs]; intros e cs Heach.
  - by injection Heach as <- <-.
  - rewrite init_each_cons in Heach.
    destruct (cmd_init prefix sub) as [[e1|] sub'] eqn:Hsub'; cbn [snd] in Hsub.
    + injection Heach as <- <-. cbn. by rewrite Hsub.
    + destruct (init_each (cmd_init prefix) subs) as [e2 cs2].
      injection Heach as <- <-. cbn. rewrite Hsub. f_equal. by eapply IHsubs.
Qed.

Lemma init_commands_skeleton (prefix : string) (keys : list (string * nat))
    (cs : list CmdClause) :
  skeleton <$> (init_commands prefix keys cs).2 = skeleton <$> cs.
Proof.
  revert cs. induction keys as [|[key i] keys IH]; intros cs; [done|].
  cbn [init_commands]. destruct (cs !! i) as [cmd|] eqn:Hi; [|apply IH].
  pose proof (cmd_init_skeleton prefix cmd) as Hcmd.
  destruct (cmd_init prefix cmd) as [e cmd']. cbn [snd] in Hcmd.
  assert (Hins : skeleton <$> <[i:=cmd']> cs = skeleton <$> cs).
  { rewrite list_fmap_insert, Hcmd. apply list_insert_id.
    by rewrite list_lookup_fmap, Hi. }
  destruct e; [done|]. by rewrite IH.
Qed.

Lemma clashes_keys (f f' : FlagClause) (g g' : flagGroup) :
  flag_name f' = flag_name f -> shorthand f' = shorthand f ->
  flag_keys g' = flag_keys g ->
  clashes f g -> clashes f' g'.
Proof.
  intros Hn Hs Hk.
  assert (Hin : forall x, x ∈ flagOrder g ->
            exists x', x' ∈ flagOrder g' /\ flag_name x' = flag_name x
                       /\ shorthand x' = shorthand x).
  { intros x Hx.
    assert (Hkx : (flag_name x, shorthand x) ∈ flag_keys g').
    { rewrite Hk. unfold flag_keys. apply list_elem_of_fmap. eauto. }
    apply list_elem_of_fmap in Hkx as (x' & [= -> ->] & Hx'). eauto. }
  intros [(x & Hx & Hxn)|(Hr & x & Hx & Hxs)].
  - destruct (Hin x Hx) as (x' & Hx' & Hn' & _). left. exists x'.
    split; [done|congruence].
  - destruct (Hin x Hx) as (x' & Hx' & _ & Hs'). right. split; [congruence|].
    exists x'. split; [done|congruence].
Qed.

(** A duplicate is a matter of names and shorthands only. *)
Lemma duplicate_below_skeleton (groups groups' : list flagGroup) (c c' : CmdClause) :
  duplicate_below groups c ->
  flag_keys <$> groups' = flag_keys <$> groups ->
  skeleton c' = skeleton c ->
  duplicate_below groups' c'.
Proof.
  intros Hdup. revert groups' c'.
  induction Hdup as [groups c f g Hf Hg Hclash|groups c sub Hsub _ IH];
    intros groups' c' Hgroups Hskel; rewrite !skeleton_unfold in Hskel;
    injection Hskel as Hkeys Hsubs.
  - assert (Hf' : (flag_name f, shorthand f) ∈ flag_keys (cmd_flagGroup c')).
    { rewrite Hkeys. apply list_elem_of_fmap. eauto. }
    apply list_elem_of_fmap in Hf' as (f' & [= Hn Hs] & Hf').
    assert (Hg' : flag_keys g ∈ flag_keys <$> groups').
    { rewrite Hgroups. apply list_elem_of_fmap. eauto. }
    apply list_elem_of_fmap in Hg' as (g' & Hk & Hg').
    apply (duplicate_here _ _ f' g'); [done|done|].
    by apply (clashes_keys f f' g g').
  - assert (Hs' : skeleton sub ∈ skeleton <$> cmd_commandOrder c').
    { rewrite Hsubs. apply list_elem_of_fmap. eauto. }
    apply list_elem_of_fmap in Hs' as (sub' & Hskel' & Hsub').
    apply (duplicate_deeper _ _ sub' Hsub'), IH; [|done].
    by rewrite !fmap_app, Hgroups; cbn; rewrite Hkeys.
Qed.

Lemma init_initialized (o : RangeOrder) (a : Application) :
  initialized (init o a).2 = bool_decide ((init o a).1 = None).
Proof.
  unfold init. destruct (initialized a) eqn:Hinit; [cbn; by rewrite Hinit|].
  destruct (have (app_commandOrder a) && have (args (app_argGroup a))); [by cbn|].
  match goal with |- context [flagGroup_init ?p ?g] =>
    destruct (flagGroup_init p g) as [[e|] fg] end;
    [by destruct (have (app_commandOrder a)); cbn|].
  destruct (cmdGroup_init _); [by destruct (have (app_commandOrder a)); cbn|].
  destruct (argGroup_init _); [by destruct (have (app_commandOrder a)); cbn|].
  destruct (init_commands _ _ _) as [[e|] cs];
    [by destruct (have (app_commandOrder a)); cbn|].
  destruct (first_error _ _); by destruct (have (app_commandOrder a)); cbn.
Qed.

(** C8: structural validation.  [init] rejects an application that has both
    top-level arguments and top-level commands, and one in which a flag of a
    command repeats a long name or a shorthand of an ancestor, the
    application included.  The error is made before any argument is looked
    at: every [Parse] returns it, whatever its arguments, and does nothing
    else.  An [init] without error sets [initialized], and an initialised
    application is not validated again: [init] returns at once, and
    [Parse] keeps the application as its [init] left it. *)
Theorem init_validates_once (o : RangeOrder) (a : Application) :
  (initialized a = false ->
   have (app_commandOrder a) = true -> have (args (app_argGroup a)) = true ->
   exists e, (init o a).1 = Some e)
  /\ (initialized a = false ->
      (exists c, c ∈ app_commandOrder a /\ duplicate_below [app_flagGroup a] c) ->
      exists e, (init o a).1 = Some e)
  /\ (forall e, (init o a).1 = Some e ->
      initialized (init o a).2 = false
      /\ forall arguments, (Parse o a arguments).2 = mret ("", Some e))
  /\ ((init o a).1 = None -> initialized (init o a).2 = true)
  /\ (initialized a = true -> init o a = (None, a))
  /\ (forall arguments, (Parse o a arguments).1 = (init o a).2).
Proof.
  repeat split.
  - intros Hinit Hc Ha. unfold init. rewrite Hinit, Hc, Ha. by eexists.
  - intros Hinit (c & Hc & Hdup).
    destruct (init o a).1 as [e|] eqn:Herr; [by eexists|]. exfalso.
    revert Herr. unfold init. rewrite Hinit.
    destruct (have (app_commandOrder a) && have (args (app_argGroup a))); [done|].
    assert (Hhave : have (app_commandOrder a) = true)
      by (destruct (app_commandOrder a); [by apply not_elem_of_nil in Hc|done]).
    rewrite Hhave. cbn [app_flagGroup app_argGroup app_commandOrder set_groups
                        set_HelpCommand defaultEnvarPrefix defaultEnvars Name].
    pose proof (flagGroup_init_keys (if defaultEnvars a then Name a else "")
                  (app_flagGroup a)) as Hkeys.
    destruct (flagGroup_init _ (app_flagGroup a)) as [[e|] fg]; [done|].
    cbn [snd] in Hkeys.
    cbn [app_flagGroup app_argGroup app_commandOrder set_groups].
    destruct (cmdGroup_init _); [done|]. destruct (argGroup_init _); [done|].
    match goal with |- context [init_commands ?p ?k ?cs] =>
      pose proof (init_commands_skeleton p k cs) as Hskel;
      destruct (init_commands p k cs) as [[e|] cs'] end; [done|].
    cbn [snd] in Hskel.
    cbn [app_flagGroup app_argGroup app_commandOrder set_groups].
    assert (Hc' : skeleton c ∈ skeleton <$> cs').
    { rewrite Hskel. apply list_elem_of_fmap. exists c. split; [done|by right]. }
    apply list_elem_of_fmap in Hc' as (c' & Hcc' & Hc').
    assert (Hdup' : duplicate_below [fg] c').
    { apply (duplicate_below_skeleton [app_flagGroup a] _ c); [done| |done].
      cbn. by rewrite Hkeys. }
    apply checkDuplicateFlags_complete in Hdup'.
    destruct (first_error_is_Some cs' (fun cmd => checkDuplicateFlags cmd [fg]) c'
                Hc' Hdup') as [e ->].
    done.
  - pose proof (init_initialized o a) as Hi. rewrite H in Hi.
    by rewrite Hi.
  - intros arguments. unfold Parse, parseContext.
    destruct (init o a) as [[e'|] a']; cbn in H |- *; by simplify_eq.
  - intros Herr. pose proof (init_initialized o a) as Hi. rewrite Herr in Hi.
    by rewrite Hi.
  - intros Hinit. unfold init. by rewrite Hinit.
  - intros arguments. unfold Parse, parseContext.
    destruct (init o a) as [[e'|] a']; [done|].
    by destruct (parse _ _).
Qed.

Lemma init_validates_once_witness :
  (exists e, (init listed_order mixed_app).1 = Some e)
  /\ (exists e, (init listed_order duplicate_flag_app).1 = Some e).
Proof.
  split.
  - apply (proj1 (init_validates_once listed_order mixed_app)); reflexivity.
  - apply (proj1 (proj2 (init_validates_once listed_order duplicate_flag_app)));
      [reflexivity|].
    exists (with_flags [Flag_ "a" (stringValue 11)] (Command_ [] "cmd")).
    split; [apply list_elem_of_here|].
    apply (duplicate_here _ _ (Flag_ "a" (stringValue 11))
             (app_flagGroup duplicate_flag_app));
      [apply list_elem_of_here|apply list_elem_of_here|].
    left. exists (Flag_ "a" (stringValue 10)). split; [|reflexivity].
    vm_compute. do 7 apply list_elem_of_further. apply list_elem_of_here.
Defined.

(** ** Running the pipeline on simple applications *)


Lemma elem_of_range {A : Type} (o : RangeOrder) (site : nat) (m : gmap string A)
    (k : string) (x : A) :
  (k, x) ∈ range o site m <-> m !! k = Some x.
Proof. unfold range. by rewrite order_perm, elem_of_map_to_list. Qed.

Lemma long_lookup_Some (g : flagGroup) (k : string) (f : FlagClause) :
  long g !! k = Some f -> f ∈ flagOrder g /\ flag_name f = k.
Proof.
  unfold long.
  enough (H : forall m : gmap string FlagClause,
            foldl (fun m f => <[flag_name f := f]> m) m (flagOrder g) !! k = Some f ->
            m !! k = Some f \/ (f ∈ flagOrder g /\ flag_name f = k)).
  { intros Hl. by destruct (H ∅ Hl) as [Hm|?]; [rewrite lookup_empty in Hm|]. }
  induction (flagOrder g) as [|f' fs IH]; intros m Hl; [by left|].
  cbn in Hl. destruct (IH _ Hl) as [Hm|[Hin Hn]].
  - destruct (decide (flag_name f' = k)) as [<-|Hne].
    + rewrite lookup_insert_eq in Hm. injection Hm as ->. right. split; [left|done].
    + rewrite lookup_insert_ne in Hm by done. by left.
  - right. split; [by right|done].
Qed.

Lemma long_lookup_None (g : flagGroup) (k : string) :
  Forall (fun f => flag_name f <> k) (flagOrder g) -> long g !! k = None.
Proof.
  intros Hall. apply eq_None_not_Some. intros (f & Hf & Hn)%long_is_Some.
  by eapply Forall_forall in Hall.
Qed.

Lemma long_snoc (fs : list FlagClause) (f : FlagClause) :
  long (mkFlagGroup (fs ++ [f])) = <[flag_name f := f]> (long (mkFlagGroup fs)).
Proof. unfold long. cbn. by rewrite foldl_app. Qed.

Lemma Forall_range_long (o : RangeOrder) (site : nat) (g : flagGroup)
    (P : FlagClause -> Prop) :
  Forall P (flagOrder g) ->
  Forall (fun entry : string * FlagClause => P entry.2) (range o site (long g)).
Proof.
  intros Hall. apply Forall_forall. intros [k f] Hin%elem_of_range.
  apply long_lookup_Some in Hin as [Hin _]. by eapply Forall_forall in Hall.
Qed.

(** A loop whose bodies do nothing in the world [w]. *)
Lemma for_each_inert_at {A : Type} (xs : list A) (body : A -> M (option error)) (w : World) :
  Forall (fun x => body x w = (Ret None, w)) xs ->
  for_each xs body w = (Ret None, w).
Proof.
  induction 1 as [|x xs Hx _ IH]; [done|].
  cbn [for_each]. by rewrite (check_None _ _ _ _ Hx).
Qed.

Lemma flag_setDefault_plain (f : FlagClause) (w : World) :
  flag_envar f = "" -> flag_defaultValues f = [] ->
  flag_setDefault f w = (Ret None, w).
Proof.
  intros He Hd. unfold flag_setDefault, setDefault, GetEnvarValue.
  rewrite He, Hd, orb_true_r. done.
Qed.

Lemma arg_setDefault_plain (x : ArgClause) (w : World) :
  arg_envar x = "" -> arg_defaultValues x = [] ->
  arg_setDefault x w = (Ret None, w).
Proof.
  intros He Hd. unfold arg_setDefault, setDefault, GetEnvarValue.
  rewrite He, Hd. done.
Qed.

Lemma flag_needsValue_optional (f : FlagClause) (w : World) :
  flag_required f = false -> flag_needsValue f w = (Ret false, w).
Proof.
  intros Hr. unfold flag_needsValue, needsValue, GetEnvarValue. rewrite Hr.
  destruct (_ || _); [done|]. unfold Getenv, mbind, M_bind. done.
Qed.

Lemma arg_needsValue_optional (x : ArgClause) (w : World) :
  arg_required x = false -> arg_needsValue x w = (Ret false, w).
Proof.
  intros Hr. unfold arg_needsValue, needsValue, GetEnvarValue. rewrite Hr.
  destruct (_ || _); [done|]. unfold Getenv, mbind, M_bind. done.
Qed.

(** [setDefaults] when every clause without an element is plain. *)
Lemma setDefaults_plain (o : RangeOrder) (a : Application) (context : ParseContext)
    (w : World) (flagElements : gmap string ParseElement) :
  flagElements_unless_help (Elements context) ∅ = Some flagElements ->
  Forall (fun f => flagElements !! flag_name f = None -> plain_flag f)
         (flagOrder (flags context)) ->
  Forall (fun x => argElements_of (Elements context) !! arg_name x = None -> plain_arg x)
         (args (arguments context)) ->
  setDefaults o a context w = (Ret None, world_after w (heap w) [EvPass PSetDefaults]).
Proof.
  intros Hfe Hflags Hargs. unfold setDefaults. rewrite emit_then, Hfe.
  erewrite check_None.
  - apply for_each_inert_at. eapply Forall_impl; [exact Hargs|]. intros x Hx. cbn.
    case_bool_decide as Hm; [|done].
    destruct (Hx Hm) as (He & Hd & _). by apply arg_setDefault_plain.
  - apply for_each_inert_at.
    eapply Forall_impl; [apply (Forall_range_long _ _ _ _ Hflags)|].
    intros [k f] Hf. cbn in *. case_bool_decide as Hm; [|done].
    destruct (Hf Hm) as (He & Hd & _). by apply flag_setDefault_plain.
Qed.

(** [validateRequired] when no clause without an element needs a value. *)
Lemma validateRequired_pass (o : RangeOrder) (a : Application)
    (context : ParseContext) (w : World) :
  let w1 := world_after w (heap w) [EvPass PValidateRequired] in
  Forall (fun f => flagElements_of (Elements context) !! flag_name f = None ->
                   flag_needsValue f w1 = (Ret false, w1))
         (flagOrder (flags context)) ->
  Forall (fun x => argElements_of (Elements context) !! arg_name x = None ->
                   arg_needsValue x w1 = (Ret false, w1))
         (args (arguments context)) ->
  validateRequired o a context w = (Ret None, w1).
Proof.
  intros w1 Hflags Hargs. unfold validateRequired. rewrite emit_then.
  fold (world_after w (heap w) [EvPass PValidateRequired]). fold w1.
  erewrite check_None.
  - apply for_each_inert_at. eapply Forall_impl; [exact Hargs|]. intros x Hx. cbn.
    case_bool_decide as Hm; [|done]. by rewrite (bind_Ret _ _ _ _ _ (Hx Hm)).
  - apply for_each_inert_at.
    eapply Forall_impl; [apply (Forall_range_long _ _ _ _ Hflags)|].
    intros [k f] Hf. cbn in *. case_bool_decide as Hm; [|done].
    by rewrite (bind_Ret _ _ _ _ _ (Hf Hm)).
Qed.

Lemma applyPreActions_none (o : RangeOrder) (a : Application)
    (context : ParseContext) (dispatch : bool) (w : World) :
  app_preActions a = [] ->
  Forall (fun element => element_preActions element = []) (Elements context) ->
  applyPreActions o a context dispatch w
  = (Ret None, world_after w (heap w) [EvPass PPreActions]).
Proof.
  intros Happ Hels. unfold applyPreActions. rewrite emit_then, Happ.
  cbn [apply_mixin for_each]. rewrite (check_None _ _ _ _ eq_refl).
  destruct dispatch; [|done]. apply for_each_inert_at.
  eapply Forall_impl; [exact Hels|]. intros el Hel. cbn. by rewrite Hel.
Qed.

Lemma applyActions_none (o : RangeOrder) (a : Application)
    (context : ParseContext) (w : World) :
  app_actions a = [] ->
  Forall (fun element => element_actions element = []) (Elements context) ->
  applyActions o a context w
  = (Ret None, world_after w (heap w) [EvPass PActions]).
Proof.
  intros Happ Hels. unfold applyActions. rewrite emit_then, Happ.
  cbn [apply_mixin for_each]. rewrite (check_None _ _ _ _ eq_refl).
  apply for_each_inert_at.
  eapply Forall_impl; [exact Hels|]. intros el Hel. cbn. by rewrite Hel.
Qed.

Lemma applyValidators_none (a : Application) (context : ParseContext) (w : World) :
  validator a = None ->
  Forall (fun element => match element with
                         | ElemCmd c => cmd_validator c = None
                         | _ => True
                         end) (Elements context) ->
  applyValidators a context w
  = (Ret None, world_after w (heap w) [EvPass PValidators]).
Proof.
  intros Happ Hels. unfold applyValidators. rewrite emit_then, Happ.
  erewrite check_None; [done|]. apply for_each_inert_at.
  eapply Forall_impl; [exact Hels|]. intros [f raw|x raw|c] Hel; cbn; [done..|].
  by rewrite Hel.
Qed.

Lemma maybeHelp_none (a : Application) (context : ParseContext) (w : World) :
  Forall (fun element => match element with
                         | ElemFlag f _ => flag_name f <> HelpFlag a
                         | _ => True
                         end) (Elements context) ->
  maybeHelp a context w = (Ret tt, w).
Proof.
  unfold maybeHelp. induction 1 as [|[f raw|x raw|c] els Hel _ IH]; cbn; [done| |done..].
  by rewrite bool_decide_eq_false_2.
Qed.

Lemma flagElements_unless_help_Some (elements : list ParseElement)
    (m flagElements : gmap string ParseElement) :
  flagElements_unless_help elements m = Some flagElements ->
  flagElements
  = foldl (fun m element =>
             match element with
             | ElemFlag flag _ => <[flag_name flag := element]> m
             | _ => m
             end) m elements
  /\ Forall (fun element => match element with
                            | ElemFlag f _ => flag_name f <> "help"
                            | _ => True
                            end) elements.
Proof.
  revert m. induction elements as [|[f raw|x raw|c] elements IH]; intros m; cbn.
  - intros [= ->]. by split.
  - case_bool_decide; [done|]. intros [-> ?]%IH. by split; [|constructor].
  - intros [-> ?]%IH. by split; [|constructor].
  - intros [-> ?]%IH. by split; [|constructor].
Qed.

Lemma world_after_after (w : World) (h1 h2 : gmap addr Cell) (e1 e2 : list Event) :
  world_after (world_after w h1 e1) h2 e2 = world_after w h2 (e1 ++ e2).
Proof. unfold world_after. cbn. by rewrite app_assoc. Qed.

Lemma heap_world_after (w : World) (h : gmap addr Cell) (e : list Event) :
  heap (world_after w h e) = h.
Proof. reflexivity. Qed.

Lemma read_then {A B : Type} (g : World -> A) (k : A -> M B) (w : World) :
  ((fun w1 : World => (Ret (g w1), w1)) ≫= k) w = k (g w) w.
Proof. reflexivity. Qed.



(** ** Interspersion disabled *)





(** * Further properties of the code *)

(** ** [setValues]: the selected command *)

Lemma selected_after_app (selected : list string) (l1 l2 : list ParseElement) :
  selected_after selected (l1 ++ l2) = selected_after (selected_after selected l1) l2.
Proof. unfold selected_after. by rewrite omap_app, app_assoc. Qed.

Lemma lastCmd_after_app (last : option CmdClause) (l1 l2 : list ParseElement) :
  lastCmd_after last (l1 ++ l2) = lastCmd_after (lastCmd_after last l1) l2.
Proof. unfold lastCmd_after. by rewrite foldl_app. Qed.

Lemma lastCmd_after_flat (last : option CmdClause) (l : list ParseElement) :
  Forall (fun el => match el with ElemCmd _ => False | _ => True end) l ->
  lastCmd_after last l = last.
Proof.
  intros Hl. revert last. induction Hl as [|[f v|x v|c] l Hel _ IH]; intros last;
    [done|apply IH|apply IH|done].
Qed.

(** X1: [setValues] and the command path.  When the converters accept the
    values and no flag is repeated against its converter, [setValues] stores
    every matched value; if the last matched command has subcommands it
    fails with [ErrSubCommandRequired], naming the full command, and
    otherwise it returns the names of the matched commands in the order of
    the command line. *)
Theorem setValues_selected_path (a : Application) (context : ParseContext)
    (w : World) (pre post : list ParseElement) (c : CmdClause) :
  Elements context = pre ++ ElemCmd c :: post ->
  Forall (fun el => match el with ElemCmd _ => False | _ => True end) post ->
  Forall element_accepted (Elements context) ->
  no_repeat ∅ (Elements context) ->
  exists w',
    setValues a context w
    = (Ret (if have (cmd_commands c)
            then ([], Some (Errorf_w "" ErrSubCommandRequired
                              (" of '" +:+ FullCommand c +:+ "'")))
            else (omap (fun el => match el with
                                  | ElemCmd c => Some (cmd_name c)
                                  | _ => None
                                  end) (Elements context), None)), w')
    /\ heap w' = apply_sets (heap w) (sets_of (Elements context)).
Proof.
  intros Hels Hpost Hacc Hno. unfold setValues. rewrite emit_then.
  set (w1 := mkWorld _ _ _).
  destruct (setValues_loop_all (Elements context) [] None ∅ w1 Hacc Hno)
    as (tr & -> & _).
  exists (mkWorld (apply_sets (heap w) (sets_of (Elements context)))
            (environ w) (trace w1 ++ tr)).
  split; [|reflexivity]. apply (f_equal (fun r => (Ret r, _))).
  rewrite Hels at 2. rewrite lastCmd_after_app. cbn [lastCmd_after foldl].
  change (foldl _ (Some c) post) with (lastCmd_after (Some c) post).
  rewrite lastCmd_after_flat by done. unfold after_loop.
  by destruct (have (cmd_commands c)).
Qed.

Lemma setValues_selected_path_witness :
  exists w',
    setValues selected_command_app
      (context_of selected_command_app ["c0"; "c1"]) w0
    = (Ret (["c0"; "c1"], None), w').
Proof.
  destruct (setValues_selected_path selected_command_app
              (context_of selected_command_app ["c0"; "c1"]) w0
              [ElemCmd (with_commands [Command_ ["c0"] "c1"] (Command_ [] "c0"))] []
              (Command_ ["c0"] "c1")) as (w' & Hrun & _).
  - vm_compute. reflexivity.
  - constructor.
  - vm_compute. repeat constructor.
  - vm_compute. done.
  - exists w'. exact Hrun.
Defined.

(** ** [checkDuplicateFlags]: no false alarm *)

Lemma first_error_Some {A : Type} (xs : list A) (body : A -> option error) (e : error) :
  first_error xs body = Some e -> exists x, x ∈ xs /\ body x = Some e.
Proof.
  induction xs as [|x xs IH]; [done|]. rewrite first_error_cons.
  destruct (body x) as [e'|] eqn:Hx.
  - intros [= ->]. exists x. split; [apply list_elem_of_here|done].
  - intros (y & Hy & Hbody)%IH. exists y. split; [by apply list_elem_of_further|done].
Qed.

(** X2: [checkDuplicateFlags] fails exactly when some command below
    [current] declares a flag whose long name or shorthand is already taken
    in the group of one of its ancestors (the application's included);
    commands that are not on one path may share names. *)
Theorem checkDuplicateFlags_exact (current : CmdClause) (flagGroups : list flagGroup) :
  is_Some (checkDuplicateFlags current flagGroups)
  <-> duplicate_below flagGroups current.
Proof.
  split; [|apply checkDuplicateFlags_complete].
  revert flagGroups. induction current as [c IH] using CmdClause_ind_nested.
  intros groups [e He]. rewrite checkDuplicateFlags_unfold in He.
  destruct (first_error groups _) as [e'|] eqn:Hhere.
  - apply first_error_Some in Hhere as (g & Hg & Hflags).
    apply first_error_Some in Hflags as (f & Hf & Hclash).
    apply (duplicate_here _ _ f g); [done..|].
    destruct (negb _ && _) eqn:Hshort.
    + apply andb_true_iff in Hshort as [Hne Hs].
      apply negb_true_iff, bool_decide_eq_false in Hne.
      apply bool_decide_eq_true in Hs. right. split; [done|].
      by apply short_is_Some in Hs.
    + case_bool_decide as Hlong; [|done]. left. by apply long_is_Some in Hlong.
  - apply first_error_Some in He as (sub & Hsub & Hdeep).
    apply (duplicate_deeper _ _ sub); [done|].
    rewrite Forall_forall in IH. by apply (IH sub Hsub).
Qed.

(** ** [envarTransform] *)

Lemma to_upper_envar_char (c : ascii) : is_word c = true -> envar_char (to_upper c) = true.
Proof. destruct c as [[] [] [] [] [] [] [] []]; vm_compute; intros; congruence. Qed.

Lemma envar_char_fixed (c : ascii) :
  envar_char c = true -> is_word c = true /\ to_upper c = c.
Proof. destruct c as [[] [] [] [] [] [] [] []]; vm_compute; intros; split; congruence. Qed.

Lemma envarTransform_from_chars (in_run : bool) (s : string) :
  all_chars envar_char (envarTransform_from in_run s) = true.
Proof.
  revert in_run. induction s as [|c s IH]; intros in_run; [done|].
  cbn [envarTransform_from]. destruct (is_word c) eqn:Hc.
  - cbn [all_chars]. by rewrite to_upper_envar_char, IH.
  - destruct in_run; [apply IH|]. cbn [all_chars]. by rewrite IH.
Qed.

Lemma envarTransform_from_fixed (in_run : bool) (s : string) :
  all_chars envar_char s = true -> envarTransform_from in_run s = s.
Proof.
  revert in_run. induction s as [|c s IH]; intros in_run; [done|].
  cbn [all_chars envarTransform_from].
  intros [Hc Hs]%andb_true_iff. apply envar_char_fixed in Hc as [-> ->].
  by rewrite IH.
Qed.

(** X3: [envarTransform] gives names made of upper-case letters, digits and
    underscores only, and leaves such names as they are: transforming twice
    is transforming once. *)
Theorem envarTransform_normal (name : string) :
  all_chars envar_char (envarTransform name) = true
  /\ envarTransform (envarTransform name) = envarTransform name.
Proof.
  split; [apply envarTransform_from_chars|].
  apply envarTransform_from_fixed, envarTransform_from_chars.
Qed.

(** ** The plugin delegator: the argument vector *)

Lemma append_each_Some {A : Type} (xs : list A) (body : A -> option (list string))
    (g : A -> list string) (arguments : list string) :
  Forall (fun x => body x = Some (g x)) xs ->
  append_each xs body arguments = Some (arguments ++ (xs ≫= g)).
Proof.
  intros Hxs. revert arguments.
  induction Hxs as [|x xs Hx _ IH]; intros arguments; cbn [append_each].
  - by rewrite app_nil_r.
  - rewrite Hx. cbn. rewrite IH. by rewrite <- app_assoc.
Qed.

Lemma flagsIsSet_tracked (pd : pluginDelegator) (h : gmap addr Cell) (k : string) :
  is_Some (pd_flagsIsSet pd !! k) -> flagsIsSet pd h k = Some (is_set pd h k).
Proof. intros [p Hp]. unfold is_set, flagsIsSet. by rewrite Hp. Qed.

(** The vector is the command path below the plugin's root followed by what
    the loops append, in the order of the loops. *)
Lemma pluginArgs_groups (o : RangeOrder) (pd : pluginDelegator)
    (h : gmap addr Cell) (c : CmdClause) :
  flags_tracked pd ->
  pluginArgs o pd h (Some c)
  = Some (drop 1 (strings.Split (FullCommand c) " ") ++ concat (plugin_groups o pd h)).
Proof.
  intros [Hset Hglobal]. unfold pluginArgs, plugin_groups. cbn [mbind option_bind].
  rewrite (append_each_Some _ _ (fun '(_, v) =>
    if bool_decide (read_string h v = "") then [] else [read_string h v])).
  2: { apply Forall_forall. by intros [k v] _. }
  cbn [mbind option_bind].
  rewrite (append_each_Some _ _ (fun '(k, v) =>
    if is_set pd h k then ["--" +:+ k +:+ "=" +:+ read_string h v] else [])).
  2: { apply Forall_forall. intros [k v] Hk%elem_of_range.
       rewrite flagsIsSet_tracked; [done|]. apply Hset. left. by eexists. }
  cbn [mbind option_bind].
  rewrite (append_each_Some _ _ (fun '(k, v) =>
    read_strings h v ≫= (fun cv =>
      if is_set pd h k then ["--" +:+ k +:+ "=" +:+ cv] else []))).
  2: { apply Forall_forall. intros [k v] Hk%elem_of_range.
       rewrite (append_each_Some _ _ (fun cv =>
         if is_set pd h k then ["--" +:+ k +:+ "=" +:+ cv] else [])); [done|].
       apply Forall_forall. intros cv _.
       rewrite flagsIsSet_tracked; [done|]. apply Hset. right. left. by eexists. }
  cbn [mbind option_bind].
  rewrite (append_each_Some _ _ (fun '(k, v) =>
    if is_set pd h k
    then if read_bool h v then ["--" +:+ k] else ["--no-" +:+ k]
    else [])).
  2: { apply Forall_forall. intros [k v] Hk%elem_of_range.
       rewrite flagsIsSet_tracked; [done|]. apply Hset. do 2 right. left. by eexists. }
  cbn [mbind option_bind].
  rewrite (append_each_Some _ _ (fun '(k, v) =>
    if is_set pd h k then if read_bool h v then ["--" +:+ k] else [] else [])).
  2: { apply Forall_forall. intros [k v] Hk%elem_of_range.
       rewrite flagsIsSet_tracked; [done|]. apply Hset. do 3 right. left. by eexists. }
  cbn [mbind option_bind].
  rewrite (append_each_Some _ _ (fun f =>
    if is_set pd h f
    then match pd_globalFlags pd !! f with
         | Some v => ["--" +:+ f +:+ "=" +:+ String_ v (h !! target v)]
         | None => []
         end
    else [])).
  2: { apply Forall_forall. intros f Hf.
       rewrite flagsIsSet_tracked by (apply Hset; by do 4 right).
       cbn. destruct (is_set pd h f); [|done].
       by destruct (Hglobal f Hf) as [v ->]. }
  cbn [mbind option_bind].
  rewrite (append_each_Some _ _ (fun '(_, v) =>
    filter (fun i => i ≠ "") (read_strings h v))).
  2: { apply Forall_forall. by intros [k v] _. }
  f_equal. cbn [concat]. rewrite app_nil_r. by rewrite <- !app_assoc.
Qed.

Lemma bind_all_nil {A B : Type} (xs : list A) (g : A -> list B) :
  (forall x, x ∈ xs -> g x = []) -> xs ≫= g = [].
Proof.
  induction xs as [|x xs IH]; intros Hg; [done|].
  rewrite bind_cons, Hg by apply list_elem_of_here.
  apply IH. intros y Hy. by apply Hg, list_elem_of_further.
Qed.

(** X4: flags the user did not set are not passed on.  For a delegator
    filled by [addFlagsFromModel], in a run where no [flagsIsSet] cell is
    true, [pluginAction] does not panic and the plugin receives the command
    path below the plugin's root, the non-empty positional values and the
    non-empty remainder entries, and nothing else, whatever the flags hold
    (defaults included) and whatever the order of the maps. *)
Theorem pluginArgs_unset_flags (o : RangeOrder) (pd : pluginDelegator)
    (h : gmap addr Cell) (c : CmdClause) :
  flags_tracked pd ->
  (forall k p, pd_flagsIsSet pd !! k = Some p -> read_bool h p = false) ->
  pluginArgs o pd h (Some c)
  = Some (drop 1 (strings.Split (FullCommand c) " ")
          ++ (range o 3 (pd_args pd) ≫= (fun '(_, v) =>
                if bool_decide (read_string h v = "") then [] else [read_string h v]))
          ++ (range o 8 (pd_cumuArgs pd) ≫= (fun '(_, v) =>
                filter (fun i => i ≠ "") (read_strings h v)))).
Proof.
  intros Htracked Hunset. rewrite pluginArgs_groups by done.
  assert (Hset : forall k, is_set pd h k = false).
  { intros k. unfold is_set, flagsIsSet.
    destruct (pd_flagsIsSet pd !! k) as [p|] eqn:Hp; [|done]. cbn. by apply (Hunset k). }
  unfold plugin_groups. cbn [concat].
  rewrite (bind_all_nil (range o 4 _)) by (intros [k v] _; by rewrite Hset).
  rewrite (bind_all_nil (range o 5 _)).
  2: { intros [k v] _. apply bind_all_nil. intros cv _. by rewrite Hset. }
  rewrite (bind_all_nil (range o 6 _)) by (intros [k v] _; by rewrite Hset).
  rewrite (bind_all_nil (range o 7 _)) by (intros [k v] _; by rewrite Hset).
  rewrite (bind_all_nil (pd_proxyGlobals pd)) by (intros f _; by rewrite Hset).
  by rewrite !app_nil_l, app_nil_r.
Qed.

Lemma flags_delegator_tracked : flags_tracked flags_delegator.
Proof.
  split.
  - intros k [[v H]|[[v H]|[[v H]|[[v H]|H]]]]; cbn in H.
    + apply lookup_singleton_Some in H as [<- _]. by eexists.
    + by rewrite lookup_empty in H.
    + apply lookup_singleton_Some in H as [<- _]. by eexists.
    + by rewrite lookup_empty in H.
    + by apply elem_of_nil in H.
  - intros f H. by apply elem_of_nil in H.
Qed.

Lemma pluginArgs_unset_flags_witness :
  pluginArgs listed_order flags_delegator unset_flags_heap (Some plugin_leaf)
  = Some ["leaf"; "1"; "x"; "y"].
Proof.
  apply (pluginArgs_unset_flags listed_order flags_delegator unset_flags_heap
           plugin_leaf flags_delegator_tracked).
  intros k p H. cbn in H.
  apply lookup_insert_Some in H as [[_ <-]|[_ [_ <-]%lookup_singleton_Some]];
    reflexivity.
Defined.

Lemma range_Permutation {A : Type} (o1 o2 : RangeOrder) (s1 s2 : nat)
    (m : gmap string A) :
  range o1 s1 m ≡ₚ range o2 s2 m.
Proof. unfold range. by rewrite !order_perm. Qed.

(** X5: the order of the maps only permutes the vector.  For a delegator
    filled by [addFlagsFromModel], two runs of [pluginAction] on the same
    parsed values give the command path first and, after it, the same
    arguments with the same multiplicities, in orders that may differ. *)
Theorem pluginArgs_up_to_order (o1 o2 : RangeOrder) (pd : pluginDelegator)
    (h : gmap addr Cell) (c : CmdClause) :
  flags_tracked pd ->
  exists rest1 rest2,
    pluginArgs o1 pd h (Some c)
    = Some (drop 1 (strings.Split (FullCommand c) " ") ++ rest1)
    /\ pluginArgs o2 pd h (Some c)
       = Some (drop 1 (strings.Split (FullCommand c) " ") ++ rest2)
    /\ rest1 ≡ₚ rest2.
Proof.
  intros Htracked. rewrite !pluginArgs_groups by done.
  eexists _, _. split; [done|]. split; [done|].
  unfold plugin_groups. cbn [concat].
  repeat (apply Permutation_app; [by rewrite (range_Permutation o1 o2)|]).
  apply Permutation_app; [done|].
  apply Permutation_app; [by rewrite (range_Permutation o1 o2)|done].
Qed.

Lemma pluginArgs_up_to_order_witness :
  exists rest1 rest2,
    pluginArgs listed_order two_args_delegator two_args_heap (Some plugin_leaf)
    = Some (drop 1 (strings.Split (FullCommand plugin_leaf) " ") ++ rest1)
    /\ pluginArgs reversed_order two_args_delegator two_args_heap (Some plugin_leaf)
       = Some (drop 1 (strings.Split (FullCommand plugin_leaf) " ") ++ rest2)
    /\ rest1 ≡ₚ rest2.
Proof.
  apply (pluginArgs_up_to_order listed_order reversed_order two_args_delegator
           two_args_heap plugin_leaf).
  split.
  - intros k [[v H]|[[v H]|[[v H]|[[v H]|H]]]]; cbn in H;
      try (by rewrite lookup_empty in H); by apply elem_of_nil in H.
  - intros f H. by apply elem_of_nil in H.
Defined.

(** X6: a negatable boolean flag the user set is always passed on, as
    [--name] when it holds true and as [--no-name] when it holds false. *)
Theorem pluginArgs_negatable_flag (o : RangeOrder) (pd : pluginDelegator)
    (h : gmap addr Cell) (c : CmdClause) (k : string) (v p : addr) :
  flags_tracked pd ->
  pd_boolFlags pd !! k = Some v ->
  pd_flagsIsSet pd !! k = Some p -> read_bool h p = true ->
  exists arguments,
    pluginArgs o pd h (Some c) = Some arguments
    /\ (if read_bool h v then "--" +:+ k else "--no-" +:+ k) ∈ arguments.
Proof.
  intros Htracked Hk Hp Hset. rewrite pluginArgs_groups by done.
  eexists. split; [done|]. apply elem_of_app. right.
  unfold plugin_groups. cbn [concat]. do 3 (apply elem_of_app; right).
  apply elem_of_app. left. apply list_elem_of_bind. exists (k, v).
  split; [|by apply elem_of_range].
  unfold is_set, flagsIsSet. rewrite Hp. cbn. rewrite Hset.
  destruct (read_bool h v); apply list_elem_of_here.
Qed.

Lemma pluginArgs_negatable_flag_witness :
  exists arguments,
    pluginArgs listed_order flags_delegator negated_flag_heap (Some plugin_leaf)
    = Some arguments
    /\ "--no-verbose" ∈ arguments.
Proof.
  apply (pluginArgs_negatable_flag listed_order flags_delegator negated_flag_heap
           plugin_leaf "verbose" 31 41 flags_delegator_tracked);
    reflexivity.
Defined.


(** ** [Parse] on a context that dispatches no callback *)

(** [execute] when validation passes and nothing is dispatched: the selected
    command, or [ErrCommandNotSpecified] when there is none and the
    application has commands. *)
Lemma execute_plain_outcome (o : RangeOrder) (a : Application) (context : ParseContext)
    (selected : list string) (w : World) :
  Forall (fun f => flagElements_of (Elements context) !! flag_name f = None ->
                   plain_flag f) (flagOrder (flags context)) ->
  Forall (fun x => argElements_of (Elements context) !! arg_name x = None ->
                   plain_arg x) (args (arguments context)) ->
  app_actions a = [] -> validator a = None ->
  Forall (fun element => element_preActions element = []
                         /\ element_actions element = []
                         /\ match element with
                            | ElemCmd c => cmd_validator c = None
                            | _ => True
                            end) (Elements context) ->
  execute o a context selected w
  = (Ret (if bool_decide (strings.Join selected " " = "") && have (app_commandOrder a)
          then ("", Some (sentinel ErrCommandNotSpecified))
          else (strings.Join selected " ", None)),
     world_after w (heap w) [EvPass PValidateRequired; EvPass PValidators; EvPass PActions]).
Proof.
  intros Hflags Hargs Hact Hval Hels. unfold execute.
  erewrite (bind_Ret (validateRequired _ _ _)).
  2:{ apply validateRequired_pass.
      - eapply Forall_impl; [exact Hflags|]. intros f Hf Hm.
        destruct (Hf Hm) as (_ & _ & Hr). by apply flag_needsValue_optional.
      - eapply Forall_impl; [exact Hargs|]. intros x Hx Hm.
        destruct (Hx Hm) as (_ & _ & Hr). by apply arg_needsValue_optional. }
  cbn beta iota.
  erewrite (bind_Ret (applyValidators _ _)).
  2:{ apply applyValidators_none; [done|].
      eapply Forall_impl; [exact Hels|]. by intros [| |] (?&?&?). }
  cbn beta iota. rewrite heap_world_after, world_after_after.
  erewrite (bind_Ret (applyActions _ _ _)).
  2:{ apply applyActions_none; [done|].
      eapply Forall_impl; [exact Hels|]. by intros ? (?&?&?). }
  cbn beta iota. rewrite heap_world_after, world_after_after.
  by destruct (_ && _).
Qed.

(** The passes of [Parse] up to [maybeHelp], on a context whose unmatched
    clauses are plain and whose matched values are accepted, outside
    completion mode: what is left is the end-of-line check, the error of
    [setValues] and [execute]. *)
Lemma resolve_plain_front (o : RangeOrder) (a : Application) (context : ParseContext)
    (w : World) :
  HelpFlag a = "help" ->
  Forall (fun element => match element with
                         | ElemFlag f _ => flag_name f <> "help"
                         | _ => True
                         end) (Elements context) ->
  Forall (fun f => flagElements_of (Elements context) !! flag_name f = None ->
                   plain_flag f) (flagOrder (flags context)) ->
  Forall (fun x => argElements_of (Elements context) !! arg_name x = None ->
                   plain_arg x) (args (arguments context)) ->
  Forall element_accepted (Elements context) ->
  no_repeat ∅ (Elements context) ->
  app_preActions a = [] ->
  Forall (fun element => element_preActions element = []) (Elements context) ->
  read_bool (apply_sets (heap w) (sets_of (Elements context))) (completion a) = false ->
  exists events,
    resolve o a context None w
    = (if negb (EOL context)
       then mret ("", Some (Errorf_w "" ErrUnexpectedArgument
                              (" '" +:+ Peek context +:+ "'")))
       else
         match (after_loop (selected_after [] (Elements context))
                           (lastCmd_after None (Elements context))).2 with
         | Some e => mret ("", Some e)
         | None =>
             '(command, err) ← execute o a context
                 (after_loop (selected_after [] (Elements context))
                             (lastCmd_after None (Elements context))).1;
             (if bool_decide (err = Some (sentinel ErrCommandNotSpecified))
              then writeUsage a context else mret tt);;
             mret (command, err)
         end)
        (world_after w (apply_sets (heap w) (sets_of (Elements context))) events).
Proof.
  intros Hhelp Hnohelp Hflags Hargs Hacc Hno Hpre Hels Hcompl.
  assert (Hfe : flagElements_unless_help (Elements context) ∅
                = Some (flagElements_of (Elements context))).
  { clear -Hnohelp. unfold flagElements_of. generalize (∅ : gmap string ParseElement).
    induction Hnohelp as [|[f raw|x raw|c] els Hel _ IH]; intros m; cbn; [done| |done..].
    by rewrite bool_decide_eq_false_2. }
  unfold resolve.
  rewrite (bind_Ret _ _ _ _ _ (setDefaults_plain o a context w _ Hfe Hflags Hargs)).
  cbn beta iota.
  destruct (after_loop _ _) as [selected err] eqn:Hafter.
  assert (Hsv : exists tr,
            setValues a context (world_after w (heap w) [EvPass PSetDefaults])
            = (Ret (selected, err),
               world_after w (apply_sets (heap w) (sets_of (Elements context))) tr)).
  { unfold setValues. rewrite emit_then.
    match goal with |- context [setValues_loop ?els ?s ?l ?fs ?w1] =>
      destruct (setValues_loop_all els s l fs w1 Hacc Hno) as (tr & Hloop & _) end.
    rewrite Hloop, Hafter. unfold world_after. cbn [heap environ trace].
    rewrite <- !app_assoc. by eexists. }
  destruct Hsv as (tr & Hsv). rewrite (bind_Ret _ _ _ _ _ Hsv). cbn beta iota.
  rewrite read_then, heap_world_after, Hcompl. cbn [negb].
  erewrite (bind_Ret (applyPreActions _ _ _ _)); [|by apply applyPreActions_none].
  cbn beta iota. rewrite heap_world_after, world_after_after.
  rewrite read_then, heap_world_after, Hcompl.
  assert (Hmh : Forall (fun element => match element with
                                        | ElemFlag f _ => flag_name f <> HelpFlag a
                                        | _ => True
                                        end) (Elements context)).
  { eapply Forall_impl; [exact Hnohelp|]. intros [f raw|x raw|c]; [|done..].
    by rewrite Hhelp. }
  rewrite (bind_Ret _ _ _ _ _ (maybeHelp_none a context _ Hmh)).
  cbn [fst snd]. by eexists.
Qed.

(** X7: a token the parser left over.  On a parse that dispatches and
    defaults nothing, outside completion mode, [Parse] answers an
    unconsumed token with [ErrUnexpectedArgument], naming the token, after
    the matched values were stored and whatever [setValues] returned: its
    error, if any, is not reported. *)
Theorem resolve_unexpected_argument (o : RangeOrder) (a : Application)
    (context : ParseContext) (w : World) (token : string) (rest : list string) :
  plain_parse a context ->
  Forall element_accepted (Elements context) ->
  no_repeat ∅ (Elements context) ->
  read_bool (apply_sets (heap w) (sets_of (Elements context))) (completion a) = false ->
  remaining context = token :: rest ->
  exists w',
    resolve o a context None w
    = (Ret ("", Some (Errorf_w "" ErrUnexpectedArgument (" '" +:+ token +:+ "'"))), w')
    /\ heap w' = apply_sets (heap w) (sets_of (Elements context)).
Proof.
  intros (Hhelp & Hnohelp & Hflags & Hargs & Hpre & Hact & Hval & Hels)
         Hacc Hno Hcompl Hrem.
  destruct (resolve_plain_front o a context w) as (events & ->); try done.
  { eapply Forall_impl; [exact Hels|]. by intros ? (?&?&?). }
  unfold EOL, Peek. rewrite Hrem. cbn [negb]. by eexists.
Qed.

Lemma resolve_unexpected_argument_witness :
  exists w',
    resolve listed_order (init listed_order short_flags_app).2
      (context_of short_flags_app ["-a"; "extra"]) None w0
    = (Ret ("", Some (Errorf_w "" ErrUnexpectedArgument " 'extra'")), w')
    /\ heap w' = {[10 := CBool true]}.
Proof.
  apply (resolve_unexpected_argument listed_order (init listed_order short_flags_app).2
           (context_of short_flags_app ["-a"; "extra"]) w0 "extra" []).
  - repeat split; try reflexivity.
    + repeat constructor. intros H. by vm_compute in H.
    + repeat constructor; intros _; repeat split.
    + repeat constructor.
    + repeat constructor.
  - repeat constructor. intros old. by eexists.
  - vm_compute. split; [left; set_solver|done].
  - reflexivity.
  - reflexivity.
Defined.

Lemma after_loop_no_command (elements : list ParseElement) :
  Forall (fun el => match el with ElemCmd _ => False | _ => True end) elements ->
  after_loop (selected_after [] elements) (lastCmd_after None elements) = ([], None).
Proof.
  intros Hels. rewrite lastCmd_after_flat by done. unfold after_loop, selected_after.
  f_equal. induction Hels as [|[f v|x v|c] l Hel _ IH]; done.
Qed.

(** X8: no command given.  On a parse that dispatches and defaults nothing,
    outside completion mode, with every token consumed: when no command
    was matched and the application has commands, [Parse] writes the usage
    and calls [terminate(0)]; under a [terminate] that returns it then
    answers [ErrCommandNotSpecified], and under [os.Exit] the process ends
    there with status 0. *)
Theorem resolve_command_not_specified (o : RangeOrder) (a : Application)
    (context : ParseContext) (w : World) :
  plain_parse a context ->
  Forall element_accepted (Elements context) ->
  no_repeat ∅ (Elements context) ->
  read_bool (apply_sets (heap w) (sets_of (Elements context))) (completion a) = false ->
  EOL context = true ->
  Forall (fun el => match el with ElemCmd _ => False | _ => True end)
         (Elements context) ->
  have (app_commandOrder a) = true ->
  exists events,
    resolve o a context None w
    = let stored := apply_sets (heap w) (sets_of (Elements context)) in
      let told := events ++ [EvUsage "usage"; EvTerminate 0] in
      match terminate a 0 stored with
      | Some h => (Ret ("", Some (sentinel ErrCommandNotSpecified)), world_after w h told)
      | None => (Exited 0, world_after w stored told)
      end.
Proof.
  intros (Hhelp & Hnohelp & Hflags & Hargs & Hpre & Hact & Hval & Hels)
         Hacc Hno Hcompl Heol Hnocmd Hcmds.
  destruct (resolve_plain_front o a context w) as (events & ->); try done.
  { eapply Forall_impl; [exact Hels|]. by intros ? (?&?&?). }
  rewrite Heol, after_loop_no_command by done. cbn [negb fst snd].
  rewrite (bind_Ret _ _ _ _ _
             (execute_plain_outcome o a context [] _ Hflags Hargs Hact Hval Hels)).
  rewrite Hcmds. cbn beta iota. rewrite heap_world_after, world_after_after.
  change (bool_decide (strings.Join [] " " = "") && true) with true.
  cbn beta iota. rewrite bool_decide_eq_true_2 by done.
  exists (events ++ [EvPass PValidateRequired; EvPass PValidators; EvPass PActions]).
  unfold writeUsage, do_terminate, run_terminate, emit, mbind, M_bind, mret, M_ret,
    world_after.
  cbn [heap environ trace]. rewrite <- !app_assoc. cbn [app].
  by destruct (terminate a 0 _).
Qed.

Lemma resolve_command_not_specified_witness :
  exists events,
    resolve listed_order selected_command_initialized
      (context_of selected_command_app []) None w0
    = (Ret ("", Some (sentinel ErrCommandNotSpecified)),
       world_after w0 ∅ (events ++ [EvUsage "usage"; EvTerminate 0])).
Proof.
  apply (resolve_command_not_specified listed_order selected_command_initialized
           (context_of selected_command_app []) w0).
  - repeat split; try reflexivity.
    + constructor.
    + repeat constructor; intros _; repeat split.
    + constructor.
    + constructor.
  - constructor.
  - exact I.
  - reflexivity.
  - reflexivity.
  - constructor.
  - reflexivity.
Defined.

(** ** [Parse] in completion mode *)

(** X9: completion mode.  When [--completion-bash] has set the completion
    flag by the time the values are stored, and the application has no
    pre-action of its own, [Parse] dispatches no pre-action of a matched
    clause, prints the completions and calls [terminate(0)]; it validates
    nothing, runs no action, and returns no error, whatever the parser and
    [setValues] reported. *)
Theorem resolve_completion (o : RangeOrder) (a : Application)
    (context : ParseContext) (parseErr : option error) (w w1 w2 : World)
    (selected : list string) (setValuesErr : option error) :
  setDefaults o a context w = (Ret None, w1) ->
  setValues a context w1 = (Ret (selected, setValuesErr), w2) ->
  app_preActions a = [] ->
  read_bool (heap w2) (completion a) = true ->
  resolve o a context parseErr w
  = let told := [EvPass PPreActions; EvCompletion; EvTerminate 0] in
    match terminate a 0 (heap w2) with
    | Some h => (Ret ("", None), world_after w2 h told)
    | None => (Exited 0, world_after w2 (heap w2) told)
    end.
Proof.
  intros Hdefaults Hvalues Hpre Hcompl. unfold resolve.
  rewrite (bind_Ret _ _ _ _ _ Hdefaults). cbn beta iota.
  rewrite (bind_Ret _ _ _ _ _ Hvalues). cbn beta iota.
  rewrite read_then, Hcompl. cbn [negb].
  assert (Hquiet : applyPreActions o a context false w2
                   = (Ret None, world_after w2 (heap w2) [EvPass PPreActions])).
  { unfold applyPreActions. rewrite emit_then, Hpre. cbn [apply_mixin for_each].
    by rewrite (check_None _ _ _ _ eq_refl). }
  rewrite (bind_Ret _ _ _ _ _ Hquiet). cbn beta iota.
  rewrite read_then, heap_world_after, Hcompl.
  unfold generateBashCompletion, do_terminate, run_terminate, emit, mbind, M_bind,
    mret, M_ret, world_after.
  cbn [heap environ trace]. rewrite <- !app_assoc. cbn [app].
  by destruct (terminate a 0 _).
Qed.

Lemma resolve_completion_witness :
  resolve listed_order (init listed_order required_flags_app).2
    (context_of required_flags_app ["--completion-bash"; "--a=1"; "--a=2"; "--nope"])
    (Some (Errorf_w "" ErrUnknownLongFlag " '--nope'")) w0
  = (Ret ("", None),
     mkWorld (<[10 := CString "1"]> {[completion_addr := CBool true]}) ∅
       [EvPass PSetDefaults; EvPass PSetValues;
        EvSet PSetValues completion_addr "true"; EvSet PSetValues 10 "1";
        EvPass PPreActions; EvCompletion; EvTerminate 0]).
Proof.
  rewrite (resolve_completion listed_order (init listed_order required_flags_app).2
           (context_of required_flags_app
              ["--completion-bash"; "--a=1"; "--a=2"; "--nope"])
           (Some (Errorf_w "" ErrUnknownLongFlag " '--nope'")) w0
           (mkWorld ∅ ∅ [EvPass PSetDefaults])
           (mkWorld (<[10 := CString "1"]> {[completion_addr := CBool true]}) ∅
              [EvPass PSetDefaults; EvPass PSetValues;
               EvSet PSetValues completion_addr "true"; EvSet PSetValues 10 "1"])
           [] (Some (Errorf_w "flag 'a' " ErrFlagCannotRepeat ""))).
  - reflexivity.
  - vm_compute. reflexivity.
  - vm_compute. reflexivity.
  - reflexivity.
  - reflexivity.
Defined.

(** ** The order in which callbacks are dispatched *)

Lemma callers_app (e1 e2 : list Event) : callers (e1 ++ e2) = callers e1 ++ callers e2.
Proof. apply omap_app. Qed.

Lemma dispatches_quiet (m : M (option error)) :
  (forall w, trace (m w).2 = trace w) -> dispatches [] m.
Proof. intros Hm w. exists []. by rewrite app_nil_r. Qed.

Lemma dispatches_fail (owners : list string) (e : error) :
  dispatches owners (mret (Some e)).
Proof.
  intros w. exists []. split; [by rewrite app_nil_r|]. split; [apply prefix_nil|done].
Qed.

Lemma dispatches_check (l1 l2 : list string) (e k : M (option error)) :
  dispatches l1 e -> dispatches l2 k -> dispatches (l1 ++ l2) (check e k).
Proof.
  intros He Hk w. destruct (He w) as (e1 & Ht1 & Hp1 & Hall1).
  unfold check, mbind, M_bind. destruct (e w) as [[[err|]|n] w1]; cbn in *.
  - exists e1. split; [done|]. split; [|done]. by apply prefix_app_r.
  - destruct (Hk w1) as (e2 & Ht2 & Hp2 & Hall2). exists (e1 ++ e2).
    rewrite Ht2, Ht1, app_assoc, callers_app, (Hall1 eq_refl).
    split; [done|]. split; [by apply prefix_app|]. intros Hok. by rewrite (Hall2 Hok).
  - exists e1. split; [done|]. split; [|done]. by apply prefix_app_r.
Qed.

Lemma dispatches_for_each {A : Type} (xs : list A) (body : A -> M (option error))
    (owners : A -> list string) :
  (forall x, dispatches (owners x) (body x)) ->
  dispatches (xs ≫= owners) (for_each xs body).
Proof.
  intros Hbody. induction xs as [|x xs IH]; cbn [for_each].
  - by apply dispatches_quiet.
  - rewrite bind_cons. by apply dispatches_check.
Qed.

Lemma dispatches_emit (owners : list string) (e : Event) (k : M (option error)) :
  (forall p owner, e <> EvCall p owner) ->
  dispatches owners k -> dispatches owners (emit e;; k).
Proof.
  intros He Hk w. rewrite emit_then.
  destruct (Hk (mkWorld (heap w) (environ w) (trace w ++ [e]))) as (events & Ht & Hp).
  exists (e :: events). cbn in Ht. rewrite Ht, <- app_assoc. split; [done|].
  replace (callers (e :: events)) with (callers events); [done|].
  destruct e; try done. by destruct (He p owner).
Qed.

Lemma dispatches_call (owners : list string) (p : Pass) (owner : string)
    (k : M (option error)) :
  dispatches owners k -> dispatches (owner :: owners) (emit (EvCall p owner);; k).
Proof.
  intros Hk w. rewrite emit_then.
  destruct (Hk (mkWorld (heap w) (environ w) (trace w ++ [EvCall p owner])))
    as (events & Ht & Hp & Hall).
  exists (EvCall p owner :: events). cbn in Ht. rewrite Ht, <- app_assoc.
  split; [done|]. change (callers (EvCall p owner :: events)) with (owner :: callers events).
  split; [by apply prefix_cons|]. intros Hok. by rewrite (Hall Hok).
Qed.

Lemma dispatches_terminate (a : Application) (status : nat) (k : M (option error)) :
  dispatches [] k -> dispatches [] (do_terminate a status;; k).
Proof.
  intros Hk w. unfold do_terminate, run_terminate, emit, mbind, M_bind. cbn.
  destruct (terminate a status (heap w)) as [h|]; cbn.
  - destruct (Hk (mkWorld h (environ w) (trace w ++ [EvTerminate status])))
      as (events & Ht & Hp).
    exists (EvTerminate status :: events). cbn in Ht. by rewrite Ht, <- app_assoc.
  - exists [EvTerminate status]. done.
Qed.

Lemma dispatches_run_action (o : RangeOrder) (a : Application) (p : Pass)
    (owner : string) (context : ParseContext) (act : Action) :
  dispatches [owner] (run_action o a p owner context act).
Proof.
  destruct act as [f|template|version|command|pd run]; cbn [run_action].
  - apply dispatches_call, dispatches_quiet. intros w. unfold run_callback.
    by destruct (f (heap w)).
  - apply dispatches_call, dispatches_emit; [done|].
    apply dispatches_terminate. by apply dispatches_quiet.
  - apply dispatches_call, dispatches_emit; [done|].
    apply dispatches_terminate. by apply dispatches_quiet.
  - apply dispatches_call, dispatches_emit; [done|].
    apply dispatches_terminate. by apply dispatches_quiet.
  - apply dispatches_call. intros w. unfold pluginAction, mbind, M_bind, panic. cbn.
    destruct (pluginArgs _ _ _ _); cbn; [|exists []; by rewrite app_nil_r].
    eexists [_]. done.
Qed.

Lemma dispatches_apply_mixin (o : RangeOrder) (a : Application) (p : Pass)
    (owner : string) (context : ParseContext) (acts : list Action) :
  dispatches (owners_of owner acts) (apply_mixin o a p owner context acts).
Proof.
  unfold apply_mixin, owners_of.
  replace (replicate (length acts) owner) with (acts ≫= fun _ => [owner]).
  - apply dispatches_for_each. intros act. apply dispatches_run_action.
  - induction acts as [|act acts IH]; [done|]. rewrite bind_cons. cbn. by rewrite IH.
Qed.

Lemma dispatches_events_of (owners : list string) (m : M (option error)) (w : World) :
  dispatches owners m ->
  callers (events_of m w) `prefix_of` owners
  /\ ((m w).1 = Ret None -> callers (events_of m w) = owners).
Proof.
  intros Hm. destruct (Hm w) as (events & Ht & Hp). unfold events_of.
  by rewrite Ht, drop_app_length.
Qed.

(** X10: actions run in the order of the command line.  [applyActions]
    calls the actions of the application first and then those of the matched
    clauses, clause by clause in the order of the elements; when it returns
    no error every action was called, and otherwise those called are the
    first ones of that order. *)
Theorem applyActions_order (o : RangeOrder) (a : Application)
    (context : ParseContext) (w : World) :
  let owners :=
    owners_of (Name a) (app_actions a)
    ++ (Elements context ≫= fun element =>
          owners_of (element_name element) (element_actions element)) in
  callers (events_of (applyActions o a context) w) `prefix_of` owners
  /\ ((applyActions o a context w).1 = Ret None ->
      callers (events_of (applyActions o a context) w) = owners).
Proof.
  apply dispatches_events_of. unfold applyActions.
  apply dispatches_emit; [done|]. apply dispatches_check.
  - apply dispatches_apply_mixin.
  - apply dispatches_for_each. intros element. apply dispatches_apply_mixin.
Qed.

(** X11: pre-actions and the dispatch switch.  [applyPreActions] calls the
    pre-actions of the application first; with [dispatch] it goes on with
    those of the matched clauses in the order of the elements, and without
    it (completion mode) it calls no pre-action of a matched clause. *)
Theorem applyPreActions_order (o : RangeOrder) (a : Application)
    (context : ParseContext) (dispatch : bool) (w : World) :
  let owners :=
    owners_of (Name a) (app_preActions a)
    ++ (if dispatch
        then Elements context ≫= fun element =>
               owners_of (element_name element) (element_preActions element)
        else []) in
  callers (events_of (applyPreActions o a context dispatch) w) `prefix_of` owners
  /\ ((applyPreActions o a context dispatch w).1 = Ret None ->
      callers (events_of (applyPreActions o a context dispatch) w) = owners).
Proof.
  apply dispatches_events_of. unfold applyPreActions.
  apply dispatches_emit; [done|]. apply dispatches_check.
  - apply dispatches_apply_mixin.
  - destruct dispatch; [|by apply dispatches_quiet].
    apply dispatches_for_each. intros element. apply dispatches_apply_mixin.
Qed.


(** ** [validateRequired]: what it reports *)

Lemma check_result (e k : M (option error)) (w w' : World) (err : error) :
  check e k w = (Ret (Some err), w') ->
  e w = (Ret (Some err), w') \/ exists w1, e w = (Ret None, w1) /\ k w1 = (Ret (Some err), w').
Proof.
  unfold check, mbind, M_bind. destruct (e w) as [[[err1|]|n] w1]; cbn.
  - intros [= -> ->]. by left.
  - intros Hk. right. by exists w1.
  - done.
Qed.

Lemma for_each_result {A : Type} (xs : list A) (body : A -> M (option error))
    (w w' : World) (err : error) :
  for_each xs body w = (Ret (Some err), w') ->
  exists x w1, x ∈ xs /\ body x w1 = (Ret (Some err), w').
Proof.
  revert w. induction xs as [|x xs IH]; intros w; cbn [for_each]; [done|].
  intros [Hx|(w1 & _ & Hxs)]%check_result.
  - exists x, w. split; [apply list_elem_of_here|done].
  - destruct (IH w1 Hxs) as (y & w2 & Hy & Hbody). exists y, w2.
    split; [by apply list_elem_of_further|done].
Qed.

(** X13: [validateRequired] only ever reports a clause that has no matched
    element: its error is [ErrRequiredFlag], naming a flag of the context
    without an element, or [ErrRequiredArgument], naming such an argument,
    whatever the order of the flag map and the environment. *)
Theorem validateRequired_reports (o : RangeOrder) (a : Application)
    (context : ParseContext) (w w' : World) (err : error) :
  validateRequired o a context w = (Ret (Some err), w') ->
  (exists f, f ∈ flagOrder (flags context)
             /\ flagElements_of (Elements context) !! flag_name f = None
             /\ err = Errorf_w "" ErrRequiredFlag
                        (" --" +:+ flag_name f +:+ " not provided"))
  \/ (exists x, x ∈ args (arguments context)
                /\ argElements_of (Elements context) !! arg_name x = None
                /\ err = Errorf_w "" ErrRequiredArgument
                           (" '" +:+ arg_name x +:+ "' not provided")).
Proof.
  unfold validateRequired. rewrite emit_then.
  intros [Hflags|(w1 & _ & Hargs)]%check_result.
  - left. apply for_each_result in Hflags as ([k f] & w1 & Hf & Hbody).
    apply elem_of_range, long_lookup_Some in Hf as [Hf _]. exists f.
    cbn in Hbody. case_bool_decide as Hm; [|done]. split; [done|]. split; [done|].
    revert Hbody. unfold mbind, M_bind, mret, M_ret.
    destruct (flag_needsValue f w1) as [[[]|n] w2]; cbn; congruence.
  - right. apply for_each_result in Hargs as (x & w2 & Hx & Hbody). exists x.
    cbn in Hbody. case_bool_decide as Hm; [|done]. split; [done|]. split; [done|].
    revert Hbody. unfold mbind, M_bind, mret, M_ret.
    destruct (arg_needsValue x w2) as [[[]|n] w3]; cbn; congruence.
Qed.

Lemma validateRequired_reports_witness :
  exists f, f ∈ flagOrder (flags (context_of required_flags_app ["--a=foo"]))
            /\ flagElements_of (Elements (context_of required_flags_app ["--a=foo"]))
               !! flag_name f = None
            /\ Errorf_w "" ErrRequiredFlag " --b not provided"
               = Errorf_w "" ErrRequiredFlag (" --" +:+ flag_name f +:+ " not provided").
Proof.
  destruct (validateRequired_reports listed_order required_flags_app
              (context_of required_flags_app ["--a=foo"]) w0
              (mkWorld ∅ ∅ [EvPass PValidateRequired])
              (Errorf_w "" ErrRequiredFlag " --b not provided"))
    as [Hflag|(x & Hx & _)].
  - vm_compute. reflexivity.
  - exact Hflag.
  - vm_compute in Hx. by apply elem_of_nil in Hx.
Defined.

(** ** [init]: the help command *)

Lemma cmd_init_name (prefix : string) (c : CmdClause) :
  cmd_name (cmd_init prefix c).2 = cmd_name c.
Proof.
  rewrite cmd_init_unfold.
  destruct (flagGroup_init prefix (cmd_flagGroup c)) as [[e|] fg]; [done|].
  destruct (argGroup_init _); [done|]. destruct (cmdGroup_init _); [done|].
  by destruct (init_each _ _).
Qed.

Lemma init_commands_names (prefix : string) (keys : list (string * nat))
    (cs : list CmdClause) :
  cmd_name <$> (init_commands prefix keys cs).2 = cmd_name <$> cs.
Proof.
  revert cs. induction keys as [|[key i] keys IH]; intros cs; [done|].
  cbn [init_commands]. destruct (cs !! i) as [cmd|] eqn:Hi; [|apply IH].
  pose proof (cmd_init_name prefix cmd) as Hcmd.
  destruct (cmd_init prefix cmd) as [e cmd']. cbn [snd] in Hcmd.
  assert (Hins : cmd_name <$> <[i:=cmd']> cs = cmd_name <$> cs).
  { rewrite list_fmap_insert, Hcmd. apply list_insert_id.
    by rewrite list_lookup_fmap, Hi. }
  destruct e; [done|]. by rewrite IH.
Qed.

(** X14: the help command comes first.  An [init] that succeeds on an
    application with commands has added the command [help] in front of the
    commands of the application, which keep their order, and recorded it as
    [HelpCommand]; on an application without commands it adds no command. *)
Theorem init_help_first (o : RangeOrder) (a : Application) :
  initialized a = false -> (init o a).1 = None ->
  cmd_name <$> app_commandOrder (init o a).2
  = (if have (app_commandOrder a) then ["help"] else [])
    ++ (cmd_name <$> app_commandOrder a)
  /\ HelpCommand (init o a).2
     = if have (app_commandOrder a) then Some "help" else HelpCommand a.
Proof.
  intros Hinit. unfold init. rewrite Hinit.
  destruct (have (app_commandOrder a) && have (args (app_argGroup a))); [done|].
  match goal with |- context [flagGroup_init ?p ?g] =>
    destruct (flagGroup_init p g) as [[e|] fg] end; [done|].
  cbn [app_flagGroup app_argGroup app_commandOrder set_groups].
  destruct (cmdGroup_init _); [done|]. destruct (argGroup_init _); [done|].
  match goal with |- context [init_commands ?p ?k ?cs] =>
    pose proof (init_commands_names p k cs) as Hnames;
    destruct (init_commands p k cs) as [[e|] cs'] end; [done|].
  cbn [snd] in Hnames.
  cbn [app_flagGroup app_argGroup app_commandOrder set_groups].
  destruct (first_error _ _); [done|]. intros _. cbn. rewrite Hnames.
  by destruct (have (app_commandOrder a)).
Qed.

Lemma init_help_first_witness :
  cmd_name <$> app_commandOrder (init listed_order selected_command_app).2
  = ["help"; "c0"]
  /\ HelpCommand (init listed_order selected_command_app).2 = Some "help".
Proof.
  apply (init_help_first listed_order selected_command_app); reflexivity.
Defined.

(** ** [Parse] with [--help] *)

Lemma maybeHelp_exits (a : Application) (context : ParseContext) (w : World)
    (f : FlagClause) (v : string) :
  ElemFlag f v ∈ Elements context -> flag_name f = HelpFlag a ->
  terminate a = os_Exit ->
  maybeHelp a context w
  = (Exited 0, world_after w (heap w) [EvUsage "usage"; EvTerminate 0]).
Proof.
  intros Hin Hname Hexit. unfold maybeHelp.
  induction (Elements context) as [|el els IH]; [by apply elem_of_nil in Hin|].
  assert (Hhere : forall k : M unit,
            (writeUsage a context;; k) w
            = (Exited 0, world_after w (heap w) [EvUsage "usage"; EvTerminate 0])).
  { intros k. unfold writeUsage, do_terminate, run_terminate, emit, mbind, M_bind,
      world_after. cbn. rewrite Hexit. cbn. by rewrite <- app_assoc. }
  apply elem_of_cons in Hin as [<-|Hin].
  - cbn [foldr]. rewrite bool_decide_eq_true_2 by done. apply Hhere.
  - destruct el as [g u|x u|c]; cbn [foldr]; [|by apply IH..].
    case_bool_decide as Hg; [apply Hhere|by apply IH].
Qed.

(** X15: [--help] under [os.Exit].  When the help flag is among the
    matched elements, the values are accepted and no pre-action is
    registered, outside completion mode: [Parse] applies no default, stores
    the matched values, writes the usage and ends the process with status 0;
    required flags are not checked and no validator or action runs. *)
Theorem resolve_help_exits (o : RangeOrder) (a : Application)
    (context : ParseContext) (w : World) (f : FlagClause) (v : string) :
  HelpFlag a = "help" ->
  ElemFlag f v ∈ Elements context -> flag_name f = "help" ->
  Forall element_accepted (Elements context) ->
  no_repeat ∅ (Elements context) ->
  app_preActions a = [] ->
  Forall (fun element => element_preActions element = []) (Elements context) ->
  read_bool (apply_sets (heap w) (sets_of (Elements context))) (completion a) = false ->
  terminate a = os_Exit ->
  resolve o a context None w
  = (Exited 0,
     world_after w (apply_sets (heap w) (sets_of (Elements context)))
       ([EvPass PSetDefaults; EvPass PSetValues]
        ++ ((fun call => EvSet PSetValues (target call.1) call.2)
              <$> sets_of (Elements context))
        ++ [EvPass PPreActions; EvUsage "usage"; EvTerminate 0])).
Proof.
  intros Hhelp Hin Hname Hacc Hno Hpre Hels Hcompl Hexit. unfold resolve.
  assert (Hdefaults : setDefaults o a context w
                      = (Ret None, world_after w (heap w) [EvPass PSetDefaults])).
  { unfold setDefaults. rewrite emit_then.
    by rewrite (flagElements_unless_help_None _ _ f v Hin Hname). }
  rewrite (bind_Ret _ _ _ _ _ Hdefaults). cbn beta iota.
  assert (Hvalues : exists r,
            setValues a context (world_after w (heap w) [EvPass PSetDefaults])
            = (Ret r,
               world_after w (apply_sets (heap w) (sets_of (Elements context)))
                 ([EvPass PSetDefaults; EvPass PSetValues]
                  ++ ((fun call => EvSet PSetValues (target call.1) call.2)
                        <$> sets_of (Elements context))))).
  { unfold setValues. rewrite emit_then.
    match goal with |- context [setValues_loop ?els ?s ?l ?fs ?w1] =>
      destruct (setValues_loop_all els s l fs w1 Hacc Hno) as (tr & Hloop & ->) end.
    rewrite Hloop. unfold world_after. cbn [heap environ trace].
    rewrite <- !app_assoc. by eexists. }
  destruct Hvalues as ([selected err] & Hvalues).
  rewrite (bind_Ret _ _ _ _ _ Hvalues). cbn beta iota.
  rewrite read_then, heap_world_after, Hcompl. cbn [negb].
  erewrite (bind_Ret (applyPreActions _ _ _ _)); [|by apply applyPreActions_none].
  cbn beta iota. rewrite heap_world_after, world_after_after.
  rewrite read_then, heap_world_after, Hcompl.
  erewrite (bind_Exited (maybeHelp _ _)).
  2: { apply (maybeHelp_exits _ _ _ f v); [done| |done]. by rewrite Hhelp. }
  rewrite heap_world_after, world_after_after. by rewrite <- !app_assoc.
Qed.

Lemma resolve_help_exits_witness :
  resolve listed_order
    (init listed_order (AppFlag (Required (Flag_ "b" (stringValue 11))) (New "app"))).2
    (context_of (AppFlag (Required (Flag_ "b" (stringValue 11))) (New "app")) ["--help"])
    None w0
  = (Exited 0,
     mkWorld {[help_addr := CBool true]} ∅
       [EvPass PSetDefaults; EvPass PSetValues; EvSet PSetValues help_addr "true";
        EvPass PPreActions; EvUsage "usage"; EvTerminate 0]).
Proof.
  apply (resolve_help_exits listed_order
           (init listed_order (AppFlag (Required (Flag_ "b" (stringValue 11)))
                                 (New "app"))).2
           (context_of (AppFlag (Required (Flag_ "b" (stringValue 11))) (New "app"))
              ["--help"]) w0
           (Flag_ "help" (boolValue false help_addr)) "true").
  - reflexivity.
  - vm_compute. apply list_elem_of_here.
  - reflexivity.
  - repeat constructor. intros old. by eexists.
  - vm_compute. split; [left; set_solver|done].
  - reflexivity.
  - repeat constructor.
  - reflexivity.
  - reflexivity.
Defined.

(** ** The data model: [FlattenedCommands] *)






(** ** The data model: [ArgSummary] *)

Lemma count_char_app (c : ascii) (s1 s2 : string) :
  count_char c (s1 +:+ s2) = count_char c s1 + count_char c s2.
Proof.
  induction s1 as [|d s1 IH]; [done|].
  change (String d s1 +:+ s2) with (String d (s1 +:+ s2)).
  cbn [count_char]. rewrite IH. lia.
Qed.

Lemma count_char_Join (c : ascii) (l : list string) :
  c <> " "%char ->
  count_char c (strings.Join l " ") = sum_list (count_char c <$> l).
Proof.
  intros Hc. unfold strings.Join. induction l as [|s l IH]; [done|].
  destruct l as [|s' l]; [cbn; lia|].
  change (String.concat " " (s :: s' :: l))
    with (s +:+ " " +:+ String.concat " " (s' :: l)).
  rewrite !count_char_app, IH. cbn [count_char fmap list_fmap sum_list sum_list_with].
  destruct (Ascii.eqb_spec c " "); [done|]. cbn. lia.
Qed.

Lemma count_char_Repeat (c d : ascii) (n : nat) :
  count_char c (Repeat (String d "") n) = if Ascii.eqb c d then n else 0.
Proof.
  induction n as [|n IH]; cbn [Repeat]; [by destruct (Ascii.eqb c d)|].
  rewrite count_char_app, IH. cbn. destruct (Ascii.eqb c d); lia.
Qed.

Lemma ArgSummary_loop (a : list ArgModel) (out : list string) (depth : nat) :
  foldl (fun '(out, depth) arg =>
           let h := if bool_decide (am_PlaceHolder arg ≠ "")
                    then am_PlaceHolder arg
                    else "<" +:+ am_Name arg +:+ ">" in
           if negb (am_Required arg)
           then (out ++ ["[" +:+ h], S depth)
           else (out ++ [h], depth))
        (out, depth) a
  = (out ++ (summary_entry <$> a), depth + optional_args a).
Proof.
  revert out depth. induction a as [|arg a IH]; intros out depth.
  - cbn. by rewrite app_nil_r, Nat.add_0_r.
  - cbn [foldl]. rewrite fmap_cons. unfold optional_args. rewrite filter_cons.
    assert (Hentry : summary_entry arg
                     = if negb (am_Required arg)
                       then "[" +:+ (if bool_decide (am_PlaceHolder arg ≠ "")
                                     then am_PlaceHolder arg
                                     else "<" +:+ am_Name arg +:+ ">")
                       else (if bool_decide (am_PlaceHolder arg ≠ "")
                             then am_PlaceHolder arg
                             else "<" +:+ am_Name arg +:+ ">")) by done.
    destruct (am_Required arg) eqn:Hr; cbn [negb] in *; rewrite IH, Hentry.
    + rewrite decide_False by done. by rewrite <- app_assoc.
    + rewrite decide_True by done. cbn [length]. rewrite <- app_assoc. f_equal.
      unfold optional_args. lia.
Qed.

Lemma ArgSummary_snoc (a : list ArgModel) (arg : ArgModel) :
  ArgSummary (a ++ [arg])
  = Some (strings.Join
            ((summary_entry <$> a)
             ++ [summary_entry arg +:+ Repeat "]" (optional_args (a ++ [arg]))]) " ").
Proof.
  unfold ArgSummary. rewrite ArgSummary_loop. cbn [app Nat.add].
  rewrite fmap_app. cbn [fmap list_fmap].
  rewrite length_app, length_fmap. cbn [length].
  replace (length a + 1 - 1) with (length (summary_entry <$> a) + 0)
    by (rewrite length_fmap; lia).
  rewrite Nat.add_0_r, list_lookup_middle by done.
  rewrite insert_app_r_alt by lia. by rewrite Nat.sub_diag.
Qed.

Lemma count_summary_entry (arg : ArgModel) :
  bracket_free arg ->
  count_char "[" (summary_entry arg) = (if am_Required arg then 0 else 1)
  /\ count_char "]" (summary_entry arg) = 0.
Proof.
  intros (Hn1 & Hn2 & Hp1 & Hp2). unfold summary_entry.
  case_bool_decide; destruct (am_Required arg); cbn [negb];
    rewrite ?count_char_app; cbn [count_char Ascii.eqb Bool.eqb];
    rewrite ?count_char_app; cbn [count_char Ascii.eqb Bool.eqb]; lia.
Qed.

Lemma count_summary_entries (a : list ArgModel) :
  Forall bracket_free a ->
  sum_list (count_char "[" <$> (summary_entry <$> a)) = optional_args a
  /\ sum_list (count_char "]" <$> (summary_entry <$> a)) = 0.
Proof.
  unfold optional_args. induction 1 as [|arg a Harg _ [IH1 IH2]]; [done|].
  destruct (count_summary_entry arg Harg) as [H1 H2].
  rewrite !fmap_cons, filter_cons. cbn [sum_list sum_list_with]. rewrite H1, H2, IH1, IH2.
  destruct (am_Required arg); [by rewrite decide_False|by rewrite decide_True].
Qed.

(** X17: [ArgSummary] closes the brackets it opens.  On a group without
    arguments it panics (an index out of range); on any other group it
    returns a summary, and when no name or placeholder has a bracket of its
    own the summary has one opening bracket per optional argument and as
    many closing ones. *)
Theorem ArgSummary_brackets (a : list ArgModel) :
  (ArgSummary a = None <-> a = [])
  /\ (Forall bracket_free a ->
      forall summary, ArgSummary a = Some summary ->
        count_char "[" summary = optional_args a
        /\ count_char "]" summary = optional_args a).
Proof.
  destruct (decide (a = [])) as [->|Hne]; [by split|].
  destruct (exists_last Hne) as (front & arg & ->). rewrite ArgSummary_snoc.
  split; [split; [done|by intros [_ ?]%app_eq_nil]|].
  intros [Hfront Harg]%Forall_app summary [= <-].
  rewrite Forall_singleton in Harg.
  destruct (count_summary_entries front Hfront) as [Hopen Hclose].
  destruct (count_summary_entry arg Harg) as [Hopen1 Hclose1].
  rewrite !count_char_Join by done.
  rewrite !fmap_app, !sum_list_with_app. cbn [fmap list_fmap sum_list_with].
  rewrite !count_char_app, (count_char_Repeat "[" "]"), (count_char_Repeat "]" "]").
  rewrite Hopen, Hclose, Hopen1, Hclose1. cbn [Ascii.eqb Bool.eqb].
  unfold optional_args. rewrite filter_app, length_app.
  rewrite filter_cons, filter_nil.
  destruct (am_Required arg); [rewrite decide_False by done|rewrite decide_True by done];
    cbn [length]; unfold id; lia.
Qed.

Lemma ArgSummary_brackets_witness :
  let a := [mkArgModel "src" "" [] "" "" true false None false;
            mkArgModel "dst" "" [] "" "" false false None false;
            mkArgModel "rest" "" [] "" "FILES" false false None true] in
  ArgSummary a = Some "<src> [<dst> [FILES]]"
  /\ count_char "[" "<src> [<dst> [FILES]]" = optional_args a
  /\ count_char "]" "<src> [<dst> [FILES]]" = optional_args a.
Proof.
  intros a. split; [reflexivity|].
  apply (proj2 (ArgSummary_brackets a)); [|reflexivity].
  repeat constructor.
Defined.

(** ** Cheats: the listing *)

Lemma ascii_compare_N (a b : ascii) :
  Ascii.compare a b = N.compare (N_of_ascii a) (N_of_ascii b).
Proof. reflexivity. Qed.

Lemma string_compare_trans (c : comparison) (s1 s2 s3 : string) :
  String.compare s1 s2 = c -> String.compare s2 s3 = c -> String.compare s1 s3 = c.
Proof.
  revert s2 s3. induction s1 as [|a s1 IH]; intros [|b s2] [|d s3]; cbn; try congruence.
  rewrite !ascii_compare_N.
  destruct (N.compare_spec (N_of_ascii a) (N_of_ascii b)) as [Hab|Hab|Hab];
    destruct (N.compare_spec (N_of_ascii b) (N_of_ascii d)) as [Hbd|Hbd|Hbd];
    destruct (N.compare_spec (N_of_ascii a) (N_of_ascii d)) as [Had|Had|Had];
    try lia; try congruence; try apply IH.
Qed.

#[global] Instance string_le_trans : Transitive string_le.
Proof.
  intros s1 s2 s3. unfold string_le, String.leb.
  destruct (String.compare s1 s2) eqn:H12; [| |done].
  - apply String.compare_eq_iff in H12 as ->. done.
  - destruct (String.compare s2 s3) eqn:H23; [| |done].
    + apply String.compare_eq_iff in H23 as ->. by rewrite H12.
    + by rewrite (string_compare_trans Lt s1 s2 s3).
Qed.

#[global] Instance string_le_total : Total string_le.
Proof. intros s1 s2. apply String.leb_total. Qed.

#[global] Instance string_le_antisym : AntiSymm (=) string_le.
Proof. intros s1 s2. apply String.leb_antisym. Qed.

Lemma sort_Strings_Permutation (l1 l2 : list string) :
  l1 ≡ₚ l2 -> sort_Strings l1 = sort_Strings l2.
Proof.
  intros Hl. unfold sort_Strings. apply (Sorted_unique string_le).
  - apply Sorted_merge_sort, _.
  - apply Sorted_merge_sort, _.
  - by rewrite !merge_sort_Permutation.
Qed.

(** The loop of [listCheats] over the keys. *)
Lemma listCheats_loop (name : string) (l : list (string * string))
    (keys : list string) (top : string) :
  foldl (fun '(list, top) '(k, _) =>
           if bool_decide (k = name) then (list, name) else (list ++ [k], top))
        (keys, top) l
  = (keys ++ filter (fun k => k ≠ name) l.*1,
     if bool_decide (name ∈ l.*1) then name else top).
Proof.
  revert keys top. induction l as [|[k v] l IH]; intros keys top.
  - cbn. by rewrite app_nil_r.
  - cbn [foldl]. cbv beta iota. rewrite fmap_cons, filter_cons. cbn [fst].
    destruct (decide (k = name)) as [->|Hk].
    + rewrite (bool_decide_eq_true_2 (name = name)) by done. rewrite IH.
      rewrite decide_False by (by intros ?).
      rewrite (bool_decide_eq_true_2 (name ∈ name :: l.*1)) by apply list_elem_of_here.
      by destruct (bool_decide (name ∈ l.*1)).
    + rewrite (bool_decide_eq_false_2 (k = name)) by done. rewrite IH.
      rewrite decide_True by done. rewrite <- app_assoc.
      rewrite (bool_decide_ext (name ∈ k :: l.*1) (name ∈ l.*1)); [done|].
      rewrite elem_of_cons. split; [|by right]. by intros [->|?].
Qed.

(** X18: the listing of the cheats does not depend on the order of the
    map.  [listCheats] ranges over the Go map of the cheats, sorts what it
    collected and puts the cheat of the application first: every order of
    the range gives the same lines. *)
Theorem listCheats_order_free (o1 o2 : RangeOrder) (name : string)
    (cheats : gmap string string) :
  listCheats o1 name cheats = listCheats o2 name cheats.
Proof.
  unfold listCheats. case_bool_decide; [done|].
  rewrite !listCheats_loop. cbn [app].
  assert (Hkeys : (range o1 9 cheats).*1 ≡ₚ (range o2 9 cheats).*1)
    by (by rewrite (range_Permutation o1 o2 9 9)).
  rewrite (sort_Strings_Permutation _ (filter (fun k => k ≠ name) (range o2 9 cheats).*1))
    by (by rewrite Hkeys).
  rewrite (bool_decide_ext (name ∈ (range o1 9 cheats).*1)
             (name ∈ (range o2 9 cheats).*1)) by (by rewrite Hkeys).
  done.
Qed.
